(** * fluent: the buffered asynchronous transport of fluent-logger-golang

    A shallow embedding of [fluent/fluent.go].  The [Fluent] struct is a
    record that is passed explicitly; goroutines, channels and the context
    are a transition function over program points named after the source
    lines, driven by a schedule; the network (dial and write results) is
    the environment. *)

From Stdlib Require Import ZArith QArith Lia DecimalString.
From stdpp Require Import gmap strings list.

Local Open Scope Z_scope.

(** ** Go data *)

(** [int] and [int64] on a 64-bit platform: two's complement wrap-around. *)
Definition int_wrap (z : Z) : Z := (z + 2 ^ 63) mod 2 ^ 64 - 2 ^ 63.

Definition bytes := list Byte.byte.

(** [len(s)] as a Go [int]. *)
Definition len {A} (s : list A) : Z := Z.of_nat (length s).

(** The builtin [copy(dst, src)]: overwrites the first
    [min(len(dst), len(src))] elements of [dst]; the result is [dst]
    afterwards together with the number of elements copied. *)
Definition copy (dst src : bytes) : bytes * Z :=
  let n := Nat.min (length dst) (length src) in
  (take n src ++ drop n dst, Z.of_nat n).

(** [var buf []byte]: the nil slice. *)
Definition nil_slice : bytes := [].

(** ** Errors, panics and call results *)

Module reflect.
(** [reflect.Kind]. *)
Inductive Kind : Set :=
| Invalid | Bool | Int | Int8 | Int16 | Int32 | Int64
| Uint | Uint8 | Uint16 | Uint32 | Uint64 | Uintptr
| Float32 | Float64 | Complex64 | Complex128
| Array | Chan | Func | Interface | Map | Pointer | Slice
| String | Struct | UnsafePointer.

Definition Kind_eq_dec (a b : Kind) : {a = b} + {a <> b}.
Proof. decide equality. Defined.
End reflect.

#[global] Instance Kind_eq_decision : EqDecision reflect.Kind := reflect.Kind_eq_dec.

Inductive error : Set :=
| errors_New (text : string)                 (* errors.New(text) *)
| fmt_Errorf (format : string) (cause : error)
| net_UnknownNetworkError (network : string)
| net_OpError (op : string).                 (* a failed dial or write *)

Inductive panic : Set :=
| reflect_ValueError (method : string) (k : reflect.Kind)
| reflect_Interface_unexported
| nil_pointer_dereference
| panic_with (text : string).

(** What a call does when it ends: it returns its [error] result ([None] is
    Go's [nil]) or it panics. *)
Inductive ret : Set :=
| Return (err : option error)
| Panics (p : panic).

(** ** Config and the Fluent struct (lines 16-49) *)

Definition defaultHost : string := "127.0.0.1".
Definition defaultNetwork : string := "tcp".
Definition defaultSocketPath : string := "".
Definition defaultPort : Z := 24224.
Definition defaultTimeout : Z := 3 * 1000000000.
Definition defaultBufferLimit : Z := 8 * 1024 * 1024.
Definition defaultRetryWait : Z := 500.
Definition defaultMaxRetry : Z := 13.
Definition defaultReconnectWaitIncreRate : Q := (3 # 2)%Q.
Definition defaultSyncPost : bool := false.

Record Config : Set := {
  FluentPort : Z;
  FluentHost : string;
  FluentNetwork : string;
  FluentSocketPath : string;
  Timeout : Z;
  BufferLimit : Z;
  RetryWait : Z;
  MaxRetry : Z;
  TagPrefix : string;
  SyncPost : bool
}.

(** A live connection handle ([io.WriteCloser]); [None] in [conn] is the nil
    interface. *)
Definition Conn : Set := nat.

(** The fields of [Fluent] that hold data.  [postCh], [ctx] and [cancel] are
    the channels and the context of the transition function below. *)
Record Fluent : Set := {
  config : Config;
  conn : option Conn;
  buf : bytes
}.

Definition set_conn (f : Fluent) (c : option Conn) : Fluent :=
  {| config := config f; conn := c; buf := buf f |}.

Definition set_buf (f : Fluent) (b : bytes) : Fluent :=
  {| config := config f; conn := conn f; buf := b |}.

(** [time.Time], as far as [Unix()] reads it. *)
Record Time : Set := { unix_sec : Z; unix_nsec : Z }.
Definition Unix (tm : Time) : Z := unix_sec tm.

(** ** Values seen through package reflect (lines 133-162) *)

(** A struct field as [reflect.StructField] shows it: the name, the tag (read
    by [Tag.Get]) and [PkgPath], which is empty exactly for exported fields. *)
Record StructField : Set := {
  Name : string;
  Tag : gmap string string;
  PkgPath : string
}.

(** [field.Tag.Get(key)]: the value of the key, or the empty string. *)
Definition Tag_Get (tag : gmap string string) (key : string) : string :=
  default "" (tag !! key).

Section Client.

(** The dynamic values stored in fields and map entries are opaque to this
    package: they are only moved into the record handed to the encoder. *)
Context {V : Type}.

(** The argument [message interface{}]: the nil interface, a struct with its
    fields in declaration order, a map with the kind of its key type and
    its entries (each key rendered by [k.String()], in the order
    [MapKeys] returns them), or a value of any other kind. *)
Inductive Message : Type :=
| Nil
| StructValue (fields : list (StructField * V))
| MapValue (key : reflect.Kind) (entries : list (string * V))
| OtherValue (kind : reflect.Kind).

(** [reflect.ValueOf(message)]: the zero Value for the nil interface. *)
Inductive Value : Type :=
| zero_Value
| valid_Value (m : Message).

Definition ValueOf (message : Message) : Value :=
  match message with
  | Nil => zero_Value
  | m => valid_Value m
  end.

(** [Value.Kind()]. *)
Definition Kind (m : Message) : reflect.Kind :=
  match m with
  | Nil => reflect.Invalid
  | StructValue _ => reflect.Struct
  | MapValue _ _ => reflect.Map
  | OtherValue k => k
  end.

(** [msg.Type()]: panics on the zero Value. *)
Definition Type_ (msg : Value) : Message + panic :=
  match msg with
  | zero_Value => inr (reflect_ValueError "reflect.Value.Type" reflect.Invalid)
  | valid_Value m => inl m
  end.

(** [msgtype.Key().Kind()] of a map type. *)
Definition Key_Kind (m : Message) : reflect.Kind :=
  match m with
  | MapValue k _ => k
  | _ => reflect.Invalid
  end.

Definition struct_fields (m : Message) : list (StructField * V) :=
  match m with
  | StructValue fields => fields
  | _ => []
  end.

Definition map_entries (m : Message) : list (string * V) :=
  match m with
  | MapValue _ entries => entries
  | _ => []
  end.

(** The record built for the encoder: [map[string]interface{}]. *)
Abbreviation record := (gmap string V).

(** Lines 143-147: the name under which a field is stored. *)
Definition field_name (field : StructField) : string :=
  let n1 := Tag_Get (Tag field) "msg" in
  if bool_decide (n1 <> "") then n1
  else
    let n2 := Tag_Get (Tag field) "codec" in
    if bool_decide (n2 <> "") then n2 else Name field.

(** Lines 140-149: the loop over the fields.  [Interface()] panics on a
    field that is not exported. *)
Fixpoint struct_record (fields : list (StructField * V)) (kv : record)
  : record + panic :=
  match fields with
  | [] => inl kv
  | (field, v) :: rest =>
      if bool_decide (PkgPath field = "")
      then struct_record rest (<[field_name field := v]> kv)
      else inr reflect_Interface_unexported
  end.

(** Lines 160-162: the loop over the map keys. *)
Fixpoint map_record (entries : list (string * V)) (kv : record) : record :=
  match entries with
  | [] => kv
  | (k, v) :: rest => map_record rest (<[k := v]> kv)
  end.

(** ** The encoder (lines 186-191) *)

(** [Message{Tag, Time, Record}] of the wire protocol. *)
Record Envelope : Type := {
  env_Tag : string;
  env_Time : Z;
  env_Record : record
}.

(** [msg.MarshalMsg(nil)]: the generated msgpack encoder, which is not part
    of fluent.go; it is a parameter of the development. *)
Variable MarshalMsg : Envelope -> bytes + error.

Definition EncodeData (tag : string) (tm : Time) (message : record)
  : bytes + error :=
  let timeUnix := Unix tm in
  let msg := {| env_Tag := tag; env_Time := timeUnix; env_Record := message |} in
  MarshalMsg msg.

(** ** The client facade (lines 123-184) *)

(** What a facade call does next: it ends (returning or panicking) without
    touching the transport, it continues as [return f.send(data)]
    (line 174), or it sends [buf] on [postCh] and then returns nil
    (lines 183 and 177). *)
Inductive post_action : Type :=
| Done (r : ret)
| SyncSend (data : bytes)
| AsyncPost (buf : bytes).

(** Lines 181-182 of [PostRawData]: the slice that line 183 sends on
    [postCh]. *)
Definition PostRawData (f : Fluent) (data : bytes) : bytes :=
  let buf0 := nil_slice in
  let '(buf1, _) := copy buf0 (buf f) in
  buf1.

Definition EncodeAndPostData (f : Fluent) (tag : string) (tm : Time)
    (message : record) : post_action :=
  match EncodeData tag tm message with
  | inr dumperr =>
      Done (Return (Some (fmt_Errorf
        "fluent#EncodeAndPostData: can't convert '%s' to msgpack:%s" dumperr)))
  | inl data =>
      if SyncPost (config f) then SyncSend data
      else AsyncPost (PostRawData f data)
  end.

Definition PostWithTime (f : Fluent) (tag : string) (tm : Time)
    (message : Message) : post_action :=
  let tag :=
    if Z.of_nat (String.length (TagPrefix (config f))) >? 0
    then TagPrefix (config f) +:+ "." +:+ tag
    else tag in
  let msg := ValueOf message in
  match Type_ msg with
  | inr p => Done (Panics p)
  | inl msgtype =>
      if decide (Kind msgtype = reflect.Struct) then
        match struct_record (struct_fields msgtype) ∅ with
        | inr p => Done (Panics p)
        | inl kv => EncodeAndPostData f tag tm kv
        end
      else if decide (Kind msgtype <> reflect.Map) then
        Done (Return (Some (errors_New "messge must be a map")))
      else if decide (Key_Kind msgtype <> reflect.String) then
        Done (Return (Some (errors_New "map keys must be strings")))
      else
        EncodeAndPostData f tag tm (map_record (map_entries msgtype) ∅)
  end.

(** [Post]: [now] is the reading of [time.Now()]. *)
Definition Post (f : Fluent) (now : Time) (tag : string) (message : Message)
  : post_action :=
  let timeNow := now in
  PostWithTime f tag timeNow message.

(** ** The connection (lines 199-224, 242-244) *)

(** [net.DialTimeout(network, address, timeout)], answered by the
    environment: a fresh handle, or a network error and the nil handle. *)
Definition Dialer : Set := string -> string -> Z -> Conn + error.

(** [strconv.Itoa]. *)
Definition Itoa (n : Z) : string := NilZero.string_of_int (Z.to_int n).

Definition dialed (f : Fluent) (r : Conn + error) : Fluent * option error :=
  match r with
  | inl c => (set_conn f (Some c), None)
  | inr err => (set_conn f None, Some err)
  end.

Definition connect (f : Fluent) (DialTimeout : Dialer)
  : Fluent * option error :=
  let cfg := config f in
  if String.eqb (FluentNetwork cfg) "tcp" then
    dialed f (DialTimeout (FluentNetwork cfg)
                (FluentHost cfg +:+ ":" +:+ Itoa (FluentPort cfg)) (Timeout cfg))
  else if String.eqb (FluentNetwork cfg) "unix" then
    dialed f (DialTimeout (FluentNetwork cfg) (FluentSocketPath cfg) (Timeout cfg))
  else (f, Some (net_UnknownNetworkError (FluentNetwork cfg))).

(** [close]: the state afterwards and the handles on which [Close()] was
    called. *)
Definition close (f : Fluent) : Fluent * list Conn :=
  match conn f with
  | None => (f, [])
  | Some c => (set_conn f None, [c])
  end.

(** [f.buf = f.buf[0:0]]. *)
Definition flushBuffer (f : Fluent) : Fluent := set_buf f (take 0 (buf f)).

(** Conversion of a float to [int]: truncation toward zero. *)
Definition float_to_int (q : Q) : Z := Z.quot (Qnum q) (Z.pos (Qden q)).

(** [e(x, y) = int(math.Pow(x, y))], with float64 arithmetic as exact
    rational arithmetic.  For [x = 1.5] the double result is exact as long
    as [3 ^ y < 2 ^ 53], that is for [-1 <= y <= 33]. *)
Definition e (x : Q) (y : Z) : Z := float_to_int (Qpower x y).

Definition Millisecond : Z := 1000000.

(** Line 236. *)
Definition waitTime (cfg : Config) (i : Z) : Z :=
  int_wrap (RetryWait cfg * e defaultReconnectWaitIncreRate (int_wrap (i - 1))).

(** Line 237: the argument of [time.Sleep], in nanoseconds. *)
Definition sleep_duration (cfg : Config) (i : Z) : Z :=
  int_wrap (waitTime cfg i * Millisecond).

(** [New] (lines 52-93): the defaults, the first [connect], and, when it
    succeeds, [go f.spooler(f.ctx)]. *)
Definition New_defaults (config : Config) : Config :=
  {| FluentPort := if FluentPort config =? 0 then defaultPort else FluentPort config;
     FluentHost := if String.eqb (FluentHost config) "" then defaultHost
                   else FluentHost config;
     FluentNetwork := if String.eqb (FluentNetwork config) "" then defaultNetwork
                      else FluentNetwork config;
     FluentSocketPath := if String.eqb (FluentSocketPath config) ""
                         then defaultSocketPath else FluentSocketPath config;
     Timeout := if Timeout config =? 0 then defaultTimeout else Timeout config;
     BufferLimit := if BufferLimit config =? 0 then defaultBufferLimit
                    else BufferLimit config;
     RetryWait := if RetryWait config =? 0 then defaultRetryWait
                  else RetryWait config;
     MaxRetry := if MaxRetry config =? 0 then defaultMaxRetry else MaxRetry config;
     TagPrefix := TagPrefix config;
     SyncPost := if negb (SyncPost config) then defaultSyncPost
                 else SyncPost config |}.

Definition New (config : Config) (DialTimeout : Dialer)
  : Fluent * option error :=
  let f := {| config := New_defaults config; conn := None; buf := nil_slice |} in
  connect f DialTimeout.

(** ** Events *)

(** What the program does to its environment, in the order it does it. *)
Inductive event : Set :=
| ev_connect (i : Z) (err : option error)   (* attempt [i] of the loop, line 229 *)
| ev_Sleep (d : Z)                          (* [time.Sleep(d)] has elapsed *)
| ev_Write (c : Conn) (p : bytes) (err : option error)  (* [c.Write(p)] *)
| ev_Close (c : Conn)                       (* [c.Close()] *)
| ev_return (r : ret)                       (* a facade call returns *)
| ev_panic (p : panic).                     (* the process dies *)

Definition reconnect_panic : panic :=
  panic_with "fluent#reconnect: failed to reconnect!".

(** ** The reconnect loop (lines 228-238) *)

Inductive loop_end : Set :=
| connected             (* [break] *)
| panicked              (* line 234 *)
| dialing (i : Z).      (* the environment has not answered attempt [i] yet *)

(** The loop run on its own; the environment answers one dial per
    attempt. *)
Fixpoint reconnect_loop (f : Fluent) (i : Z) (net : list Dialer)
  : Fluent * list event * loop_end :=
  match net with
  | [] => (f, [], dialing i)
  | DialTimeout :: net' =>
      let '(f1, err) := connect f DialTimeout in
      match err with
      | None => (f1, [ev_connect i None], connected)
      | Some _ =>
          if i =? MaxRetry (config f1) then
            (f1, [ev_connect i err; ev_panic reconnect_panic], panicked)
          else
            let d := sleep_duration (config f1) i in
            let '(f2, tr, r) := reconnect_loop f1 (int_wrap (i + 1)) net' in
            (f2, ev_connect i err :: ev_Sleep d :: tr, r)
      end
  end.

(** ** The spooler's select branches (lines 259-268) *)

(** [case data := <-f.postCh]. *)
Definition spooler_postCh (f : Fluent) (data : bytes) : Fluent :=
  let f1 := set_buf f (buf f ++ data) in
  if len (buf f1) >? BufferLimit (config f1) then flushBuffer f1 else f1.

(** [case sendCh := <-sendChCh], lines 265-267: the state afterwards and
    the local [buf] that line 268 sends. *)
Definition spooler_sendChCh (f : Fluent) : Fluent * bytes :=
  let buf0 := nil_slice in
  let '(buf1, _) := copy buf0 (buf f) in
  (flushBuffer f, buf1).

(** ** send (lines 246-252) *)

(** Line 247: whether [f.reconnect()] is called.  The call only starts the
    goroutine of lines 227-239 and returns. *)
Definition send_reconnects (f : Fluent) : bool :=
  match conn f with None => true | Some _ => false end.

(** Line 250: [f.conn.Write(f.buf)]; [werr] is the error of the write.  A
    method call on the nil interface panics. *)
Definition send_Write (f : Fluent) (data : bytes) (werr : option error)
  : list event * ret :=
  match conn f with
  | None => ([ev_panic nil_pointer_dereference], Panics nil_pointer_dereference)
  | Some c => ([ev_Write c (buf f) werr], Return werr)
  end.

(** [send] when no other goroutine runs between lines 247 and 250: whether
    a reconnect goroutine was started, the events and the result. *)
Definition send (f : Fluent) (data : bytes) (werr : option error)
  : bool * list event * ret :=
  let '(evs, r) := send_Write f data werr in
  (send_reconnects f, evs, r).

(** ** The goroutines

    Program points are named after the statement a goroutine is about to
    execute.  All channels are unbuffered, so a send and the matching
    receive happen in one step. *)

Inductive send_pc : Set :=
| send_conn_check      (* line 247 *)
| send_conn_Write.     (* line 250 *)

(** The calls the client's user makes, one after the other. *)
Inductive call : Type :=
| call_Post (now : Time) (tag : string) (message : Message)
| call_PostWithTime (tag : string) (tm : Time) (message : Message)
| call_Close.

Inductive caller_pc : Type :=
| between_calls (rest : list call)
| caller_postCh_send (buf : bytes) (rest : list call)             (* line 183 *)
| caller_send (pc : send_pc) (data : bytes) (rest : list call).   (* line 174 *)

Inductive spooler_pc : Set :=
| spooler_select                                (* line 258 *)
| spooler_bufCh_send (buf : bytes)              (* line 268 *)
| spooler_senderResult_recv                     (* line 270 *)
| spooler_send (pc : send_pc) (data : bytes)    (* line 271 *)
| spooler_teardown                              (* lines 272-274 *)
| spooler_returned.

Inductive sender_pc : Set :=
| sender_sendCh_send                            (* line 283 *)
| sender_select                                 (* line 284 *)
| sender_send (pc : send_pc) (data : bytes)     (* line 286 *)
| sender_result_send                            (* line 288 *)
| sender_returned.

Inductive reconnect_pc : Set :=
| reconnect_connect (i : Z)                     (* line 229 *)
| reconnect_Sleep (i : Z) (d : Z)               (* line 237 *)
| reconnect_returned.

Record World : Type := {
  fluent : Fluent;                  (* the shared struct *)
  ctx_done : bool;                  (* [f.ctx] is cancelled *)
  at_caller : caller_pc;
  at_spooler : spooler_pc;
  at_sender : sender_pc;
  at_reconnect : list reconnect_pc; (* the goroutines started by [reconnect] *)
  crashed : bool                    (* a panic has ended the process *)
}.

Definition with_fluent (w : World) (f : Fluent) : World :=
  {| fluent := f; ctx_done := ctx_done w; at_caller := at_caller w;
     at_spooler := at_spooler w; at_sender := at_sender w;
     at_reconnect := at_reconnect w; crashed := crashed w |}.

Definition with_done (w : World) (d : bool) : World :=
  {| fluent := fluent w; ctx_done := d; at_caller := at_caller w;
     at_spooler := at_spooler w; at_sender := at_sender w;
     at_reconnect := at_reconnect w; crashed := crashed w |}.

Definition with_caller (w : World) (pc : caller_pc) : World :=
  {| fluent := fluent w; ctx_done := ctx_done w; at_caller := pc;
     at_spooler := at_spooler w; at_sender := at_sender w;
     at_reconnect := at_reconnect w; crashed := crashed w |}.

Definition with_spooler (w : World) (pc : spooler_pc) : World :=
  {| fluent := fluent w; ctx_done := ctx_done w; at_caller := at_caller w;
     at_spooler := pc; at_sender := at_sender w;
     at_reconnect := at_reconnect w; crashed := crashed w |}.

Definition with_sender (w : World) (pc : sender_pc) : World :=
  {| fluent := fluent w; ctx_done := ctx_done w; at_caller := at_caller w;
     at_spooler := at_spooler w; at_sender := pc;
     at_reconnect := at_reconnect w; crashed := crashed w |}.

Definition with_reconnect (w : World) (pcs : list reconnect_pc) : World :=
  {| fluent := fluent w; ctx_done := ctx_done w; at_caller := at_caller w;
     at_spooler := at_spooler w; at_sender := at_sender w;
     at_reconnect := pcs; crashed := crashed w |}.

Definition crash (w : World) : World :=
  {| fluent := fluent w; ctx_done := ctx_done w; at_caller := at_caller w;
     at_spooler := at_spooler w; at_sender := at_sender w;
     at_reconnect := at_reconnect w; crashed := true |}.

(** The state in which a successful [New] leaves the program: the spooler
    at its select, the sender (started at line 256) offering its channel,
    and the user about to make the calls of [prog]. *)
Definition started (f : Fluent) (prog : list call) : World :=
  {| fluent := f; ctx_done := false; at_caller := between_calls prog;
     at_spooler := spooler_select; at_sender := sender_sendCh_send;
     at_reconnect := []; crashed := false |}.

(** [Close] (lines 194-197): [f.cancel()], which is idempotent, and
    [return nil]. *)
Definition Close (w : World) : World * ret := (with_done w true, Return None).

(** One step of a goroutine that is inside [send]: the world afterwards,
    the events, and the result if [send] has ended. *)
Definition send_step (w : World) (pc : send_pc) (data : bytes)
    (werr : option error) : World * list event * option ret :=
  match pc with
  | send_conn_check =>
      if send_reconnects (fluent w)
      then (with_reconnect w (at_reconnect w ++ [reconnect_connect 0]), [], None)
      else (w, [], None)
  | send_conn_Write =>
      let '(evs, r) := send_Write (fluent w) data werr in
      match r with
      | Panics _ => (crash w, evs, Some r)
      | Return _ => (w, evs, Some r)
      end
  end.

(** One step of a reconnect goroutine (lines 228-238). *)
Definition reconnect_step (f : Fluent) (pc : reconnect_pc)
    (DialTimeout : Dialer) : option (Fluent * list event * option reconnect_pc) :=
  match pc with
  | reconnect_connect i =>
      let '(f1, err) := connect f DialTimeout in
      match err with
      | None => Some (f1, [ev_connect i None], Some reconnect_returned)
      | Some _ =>
          if i =? MaxRetry (config f1) then
            Some (f1, [ev_connect i err; ev_panic reconnect_panic], None)
          else
            Some (f1, [ev_connect i err],
                  Some (reconnect_Sleep i (sleep_duration (config f1) i)))
      end
  | reconnect_Sleep i d =>
      Some (f, [ev_Sleep d], Some (reconnect_connect (int_wrap (i + 1))))
  | reconnect_returned => None
  end.

(** ** The scheduler

    A turn names the goroutine (or the pair meeting on a channel) that
    moves next, together with what the environment answers.  Go's [select]
    takes any ready case, and nothing orders the goroutines otherwise, so
    every sequence of turns is a possible run. *)
Inductive turn : Set :=
| run_caller (werr : option error)   (* the user's goroutine; [werr] answers a write *)
| meet_postCh                        (* lines 183 and 259 *)
| meet_sendCh                        (* lines 283 and 264 *)
| meet_bufCh                         (* lines 268 and 285 *)
| sender_Done                        (* line 287 *)
| spooler_Done                       (* line 269 *)
| meet_senderResult                  (* lines 288 and 270 *)
| run_sender (werr : option error)   (* the sender inside [send] *)
| run_spooler (werr : option error)  (* the spooler in lines 271-274 *)
| run_reconnect (k : nat) (DialTimeout : Dialer).

Definition begin_call (w : World) (a : post_action) (rest : list call)
  : World * list event :=
  match a with
  | Done (Return err) => (with_caller w (between_calls rest), [ev_return (Return err)])
  | Done (Panics p) => (crash w, [ev_panic p])
  | SyncSend data => (with_caller w (caller_send send_conn_check data rest), [])
  | AsyncPost b => (with_caller w (caller_postCh_send b rest), [])
  end.

Definition step (w : World) (ch : turn) : option (World * list event) :=
  if crashed w then None else
  match ch with
  | run_caller werr =>
      match at_caller w with
      | between_calls [] => None
      | between_calls (call_Post now tag m :: rest) =>
          Some (begin_call w (Post (fluent w) now tag m) rest)
      | between_calls (call_PostWithTime tag tm m :: rest) =>
          Some (begin_call w (PostWithTime (fluent w) tag tm m) rest)
      | between_calls (call_Close :: rest) =>
          let '(w1, r) := Close w in
          Some (with_caller w1 (between_calls rest), [ev_return r])
      | caller_postCh_send _ _ => None
      | caller_send pc data rest =>
          let '(w1, evs, r) := send_step w pc data werr in
          match r with
          | None => Some (with_caller w1 (caller_send send_conn_Write data rest), evs)
          | Some (Return err) =>
              Some (with_caller w1 (between_calls rest), evs ++ [ev_return (Return err)])
          | Some (Panics _) => Some (w1, evs)
          end
      end
  | meet_postCh =>
      match at_caller w, at_spooler w with
      | caller_postCh_send data rest, spooler_select =>
          let w1 := with_fluent w (spooler_postCh (fluent w) data) in
          Some (with_caller w1 (between_calls rest), [ev_return (Return None)])
      | _, _ => None
      end
  | meet_sendCh =>
      match at_sender w, at_spooler w with
      | sender_sendCh_send, spooler_select =>
          let '(f1, b) := spooler_sendChCh (fluent w) in
          Some (with_sender (with_spooler (with_fluent w f1) (spooler_bufCh_send b))
                  sender_select, [])
      | _, _ => None
      end
  | meet_bufCh =>
      match at_spooler w, at_sender w with
      | spooler_bufCh_send data, sender_select =>
          Some (with_sender (with_spooler w spooler_select)
                  (sender_send send_conn_check data), [])
      | _, _ => None
      end
  | sender_Done =>
      match at_sender w with
      | sender_select =>
          if ctx_done w then Some (with_sender w sender_result_send, []) else None
      | _ => None
      end
  | spooler_Done =>
      match at_spooler w with
      | spooler_select =>
          if ctx_done w then Some (with_spooler w spooler_senderResult_recv, [])
          else None
      | _ => None
      end
  | meet_senderResult =>
      match at_sender w, at_spooler w with
      | sender_result_send, spooler_senderResult_recv =>
          Some (with_sender
                  (with_spooler w (spooler_send send_conn_check (buf (fluent w))))
                  sender_returned, [])
      | _, _ => None
      end
  | run_sender werr =>
      match at_sender w with
      | sender_send pc data =>
          let '(w1, evs, r) := send_step w pc data werr in
          match r with
          | None => Some (with_sender w1 (sender_send send_conn_Write data), evs)
          | Some (Return _) => Some (with_sender w1 sender_sendCh_send, evs)
          | Some (Panics _) => Some (w1, evs)
          end
      | _ => None
      end
  | run_spooler werr =>
      match at_spooler w with
      | spooler_send pc data =>
          let '(w1, evs, r) := send_step w pc data werr in
          match r with
          | None => Some (with_spooler w1 (spooler_send send_conn_Write data), evs)
          | Some (Return _) => Some (with_spooler w1 spooler_teardown, evs)
          | Some (Panics _) => Some (w1, evs)
          end
      | spooler_teardown =>
          let '(f1, closed) := close (flushBuffer (fluent w)) in
          Some (with_spooler (with_fluent w f1) spooler_returned, map ev_Close closed)
      | _ => None
      end
  | run_reconnect k DialTimeout =>
      match at_reconnect w !! k with
      | None => None
      | Some pc =>
          match reconnect_step (fluent w) pc DialTimeout with
          | None => None
          | Some (f1, evs, Some pc') =>
              Some (with_reconnect (with_fluent w f1) (<[k := pc']> (at_reconnect w)), evs)
          | Some (f1, evs, None) => Some (crash (with_fluent w f1), evs)
          end
      end
  end.

(** A run under a schedule; a turn that cannot be taken is skipped. *)
Fixpoint exec (w : World) (sched : list turn) : World * list event :=
  match sched with
  | [] => (w, [])
  | ch :: rest =>
      match step w ch with
      | None => exec w rest
      | Some (w1, evs) =>
          let '(w2, tr) := exec w1 rest in (w2, evs ++ tr)
      end
  end.

End Client.

Arguments Message V : clear implicits.
Arguments Value V : clear implicits.
Arguments Envelope V : clear implicits.
Arguments call V : clear implicits.
Arguments caller_pc V : clear implicits.
Arguments World V : clear implicits.

(** ** Concrete environments and inputs used by the examples *)

Module Sample.

(** A dial that is refused and a dial that yields handle [c]. *)
Definition refuse : Dialer := fun _ _ _ => inr (net_OpError "dial").
Definition accept (c : Conn) : Dialer := fun _ _ _ => inl c.

(** The configuration [New] builds from the zero [Config]. *)
Definition zero_Config : Config :=
  {| FluentPort := 0; FluentHost := ""; FluentNetwork := "";
     FluentSocketPath := ""; Timeout := 0; BufferLimit := 0; RetryWait := 0;
     MaxRetry := 0; TagPrefix := ""; SyncPost := false |}.

Definition default_Config : Config := New_defaults zero_Config.

Definition with_MaxRetry (cfg : Config) (n : Z) : Config :=
  {| FluentPort := FluentPort cfg; FluentHost := FluentHost cfg;
     FluentNetwork := FluentNetwork cfg;
     FluentSocketPath := FluentSocketPath cfg; Timeout := Timeout cfg;
     BufferLimit := BufferLimit cfg; RetryWait := RetryWait cfg;
     MaxRetry := n; TagPrefix := TagPrefix cfg; SyncPost := SyncPost cfg |}.

Definition with_BufferLimit (cfg : Config) (n : Z) : Config :=
  {| FluentPort := FluentPort cfg; FluentHost := FluentHost cfg;
     FluentNetwork := FluentNetwork cfg;
     FluentSocketPath := FluentSocketPath cfg; Timeout := Timeout cfg;
     BufferLimit := n; RetryWait := RetryWait cfg;
     MaxRetry := MaxRetry cfg; TagPrefix := TagPrefix cfg;
     SyncPost := SyncPost cfg |}.

Definition with_SyncPost (cfg : Config) (b : bool) : Config :=
  {| FluentPort := FluentPort cfg; FluentHost := FluentHost cfg;
     FluentNetwork := FluentNetwork cfg;
     FluentSocketPath := FluentSocketPath cfg; Timeout := Timeout cfg;
     BufferLimit := BufferLimit cfg; RetryWait := RetryWait cfg;
     MaxRetry := MaxRetry cfg; TagPrefix := TagPrefix cfg; SyncPost := b |}.

(** A client as a successful [New] returns it, and one whose connection is
    absent. *)
Definition client (cfg : Config) : Fluent :=
  {| config := cfg; conn := Some 0%nat; buf := nil_slice |}.

Definition disconnected (cfg : Config) : Fluent :=
  {| config := cfg; conn := None; buf := nil_slice |}.

(** An encoder for records with integer values: a three-element array
    header, then one byte for the value under key ["a"]. *)
Definition MarshalMsg (m : Envelope Z) : bytes + error :=
  match env_Record m !! "a" with
  | Some n => inl [Byte.x93; default Byte.x00 (Byte.of_N (Z.to_N n))]
  | None => inr (errors_New "msgp: no field a")
  end.

(** The record [{"a": n}] as a [map[string]int]. *)
Definition a_is (n : Z) : Message Z := MapValue reflect.String [("a", n)].

Definition noon : Time := {| unix_sec := 1500000000; unix_nsec := 0 |}.

(** A schedule of the scenario: each post is received by the spooler as
    soon as it is made, [Close] follows, the sender then drains once, and
    the spooler and the sender see the cancellation. *)
Definition posts_then_drain : list turn :=
  [run_caller None; meet_postCh; run_caller None; meet_postCh;
   run_caller None; meet_postCh; run_caller None;
   meet_sendCh; meet_bufCh; run_sender None; run_sender None;
   spooler_Done; meet_senderResult; run_spooler None; run_spooler None;
   run_spooler None; meet_sendCh; sender_Done].

(** Three posts with tag ["t"], then [Close]. *)
Definition three_posts_then_Close : list (call Z) :=
  [call_Post noon "t" (a_is 1); call_Post noon "t" (a_is 2);
   call_Post noon "t" (a_is 3); call_Close].

Definition with_Network (cfg : Config) (network : string) : Config :=
  {| FluentPort := FluentPort cfg; FluentHost := FluentHost cfg;
     FluentNetwork := network;
     FluentSocketPath := FluentSocketPath cfg; Timeout := Timeout cfg;
     BufferLimit := BufferLimit cfg; RetryWait := RetryWait cfg;
     MaxRetry := MaxRetry cfg; TagPrefix := TagPrefix cfg;
     SyncPost := SyncPost cfg |}.

(** A struct value [struct { Name string `msg:"name"`; Age int `codec:"age"`;
    City int }] with integer contents. *)
Definition person : list (StructField * Z) :=
  [({| Name := "Name"; Tag := {["msg" := "name"]}; PkgPath := "" |}, 1);
   ({| Name := "Age"; Tag := {["codec" := "age"]}; PkgPath := "" |}, 30);
   ({| Name := "City"; Tag := ∅; PkgPath := "" |}, 7)].

(** A struct value with two fields stored under the same name:
    [struct { ID int `msg:"id"`; Key int `msg:"id"` }]. *)
Definition clash : list (StructField * Z) :=
  [({| Name := "ID"; Tag := {["msg" := "id"]}; PkgPath := "" |}, 1);
   ({| Name := "Key"; Tag := {["msg" := "id"]}; PkgPath := "" |}, 2)].

(** The state after the scenario's schedule: the context is cancelled, the
    spooler waits at line 270 and the sender at line 283. *)
Definition after_shutdown : World Z :=
  (exec MarshalMsg (started (client default_Config) three_posts_then_Close)
     posts_then_drain).1.

End Sample.

(** ** Vocabulary of the statements *)

(** The two errors of lines 154 and 156: the value has no record shape. *)
Definition InvalidRecordShape (err : error) : Prop :=
  err = errors_New "messge must be a map" \/
  err = errors_New "map keys must be strings".

(** The buffer is empty, and so is the slice a blocked [PostRawData] is about
    to send. *)
Definition nothing_pending {V} (w : World V) : Prop :=
  buf (fluent w) = [] /\
  forall b rest, at_caller w = caller_postCh_send b rest -> b = [].


(** A write, if the event is one, carries no byte. *)
Definition empty_write (ev : event) : Prop :=
  forall c p err, ev = ev_Write c p err -> p = [].

(** The positions in which the spooler and the sender can be together once
    [New] has started them: the spooler selects or waits for the sender's
    result while the sender offers its channel or is inside [send]; or the
    spooler is handing over the slice while the sender selects or reports
    its result. *)
Definition in_step (sp : spooler_pc) (sd : sender_pc) : Prop :=
  match sp, sd with
  | spooler_select, sender_sendCh_send
  | spooler_select, sender_send _ _
  | spooler_senderResult_recv, sender_sendCh_send
  | spooler_senderResult_recv, sender_send _ _
  | spooler_bufCh_send _, sender_select
  | spooler_bufCh_send _, sender_result_send => True
  | _, _ => False
  end.

(** The spooler has got past line 270, to the final flush or further. *)
Definition past_join (sp : spooler_pc) : Prop :=
  match sp with
  | spooler_send _ _ | spooler_teardown | spooler_returned => True
  | _ => False
  end.

Definition is_Close (ev : event) : bool :=
  match ev with ev_Close _ => true | _ => false end.

Definition is_Write (ev : event) : bool :=
  match ev with ev_Write _ _ _ => true | _ => false end.

(** The number of [Close()] calls on connections in a trace. *)
Definition closes (tr : list event) : nat := length (List.filter is_Close tr).

(** How many [Close()] calls the spooler can still make: the only one is in
    its teardown, after which it has returned. *)
Definition closes_left (sp : spooler_pc) : nat :=
  match sp with spooler_returned => 0 | _ => 1 end.

(** Whether [connect] fails under configuration [cfg] when the environment
    answers the dial with [DialTimeout]. *)
Definition connect_fails (cfg : Config) (DialTimeout : Dialer) : bool :=
  match (connect {| config := cfg; conn := None; buf := nil_slice |} DialTimeout).2 with
  | Some _ => true
  | None => false
  end.

Definition is_connect (ev : event) : bool :=
  match ev with ev_connect _ _ => true | _ => false end.

(** The number of connect attempts in a trace. *)
Definition attempts (tr : list event) : nat := length (List.filter is_connect tr).

(** Lines 129-131: the tag the encoder is given. *)
Definition tag_with_prefix (cfg : Config) (tag : string) : string :=
  if Z.of_nat (String.length (TagPrefix cfg)) >? 0
  then TagPrefix cfg +:+ "." +:+ tag
  else tag.

(** The fields of a struct value under the names lines 142-148 store them. *)
Definition named_fields {V} (fields : list (StructField * V)) : list (string * V) :=
  map (fun p => (field_name p.1, p.2)) fields.

(** An event that is neither a connect attempt, nor a sleep, nor a close,
    nor one of the two panics of the transport. *)
Definition no_transport_failure (ev : event) : Prop :=
  match ev with
  | ev_connect _ _ | ev_Sleep _ | ev_Close _ => False
  | ev_panic p => p <> nil_pointer_dereference /\ p <> reconnect_panic
  | _ => True
  end.

(** The spooler's turns: the receives of lines 259 and 264 and its own steps
    of lines 271-274. *)
Definition spooler_turn (ch : turn) : Prop :=
  ch = meet_postCh \/ ch = meet_sendCh \/ exists werr, ch = run_spooler werr.

(** The errors a facade call makes itself: the two record-shape errors and
    the wrapped encoder error of line 170. *)
Definition facade_error (err : error) : Prop :=
  InvalidRecordShape err \/
  exists cause,
    err = fmt_Errorf "fluent#EncodeAndPostData: can't convert '%s' to msgpack:%s" cause.

(** A returned error, if the event is one, is a facade error. *)
Definition returns_no_transport_error (ev : event) : Prop :=
  forall err, ev = ev_return (Return (Some err)) -> facade_error err.

(** * Properties *)

Section Properties.

Context {V : Type}.
Variable MarshalMsg : Envelope V -> bytes + error.

(** ** The facade *)

(** C10: a nil message makes [PostWithTime] and [Post] panic in
    [reflect.Value.Type] on the zero Value; no error is returned, the
    record-shape branches are not reached, and the panic ends the
    process. *)
Theorem PostWithTime_nil_panics (f : Fluent) (tag : string) (tm now : Time)
    (rest : list (call V)) (werr : option error) :
  let p := reflect_ValueError "reflect.Value.Type" reflect.Invalid in
  ValueOf (@Nil V) = zero_Value /\
  Type_ (@zero_Value V) = inr p /\
  PostWithTime MarshalMsg f tag tm Nil = Done (Panics p) /\
  Post MarshalMsg f now tag Nil = Done (Panics p) /\
  (forall err, PostWithTime MarshalMsg f tag tm Nil <> Done (Return err)) /\
  (forall err, Post MarshalMsg f now tag Nil <> Done (Return err)) /\
  step MarshalMsg (started f (call_PostWithTime tag tm Nil :: rest)) (run_caller werr)
    = Some (crash (started f (call_PostWithTime tag tm Nil :: rest)), [ev_panic p]) /\
  step MarshalMsg (started f (call_Post now tag Nil :: rest)) (run_caller werr)
    = Some (crash (started f (call_Post now tag Nil :: rest)), [ev_panic p]).
Proof.
  cbn zeta. repeat split; try reflexivity; intros err H; discriminate H.
Qed.

(** C8, amended: for every non-nil value that is neither a struct nor a map
    with string keys, [PostWithTime] returns one of the two record-shape
    errors, and the call changes nothing but the caller's own position:
    the struct (buffer and connection), the context and the other
    goroutines are as before, and no byte is written. *)
Theorem PostWithTime_invalid_shape (f : Fluent) (tag : string) (tm : Time)
    (m : Message V) :
  m <> Nil ->
  Kind m <> reflect.Struct ->
  Kind m <> reflect.Map \/ Key_Kind m <> reflect.String ->
  exists err,
    InvalidRecordShape err /\
    PostWithTime MarshalMsg f tag tm m = Done (Return (Some err)) /\
    forall (w : World V) rest werr,
      crashed w = false -> fluent w = f ->
      at_caller w = between_calls (call_PostWithTime tag tm m :: rest) ->
      step MarshalMsg w (run_caller werr) =
        Some (with_caller w (between_calls rest), [ev_return (Return (Some err))]) /\
      buf (fluent (with_caller w (between_calls rest))) = buf f /\
      conn (fluent (with_caller w (between_calls rest))) = conn f.
Proof.
  intros Hnil Hstruct Hshape.
  assert (Hpost : exists err, InvalidRecordShape err /\
            PostWithTime MarshalMsg f tag tm m = Done (Return (Some err))).
  { unfold PostWithTime, InvalidRecordShape.
    destruct m as [|fields|key entries|k]; simpl in *; try congruence.
    - destruct Hshape as [H|H]; [congruence|].
      destruct (decide (key <> reflect.String)) as [_|Hn]; [eauto|].
      exfalso. apply Hn. exact H.
    - destruct (decide (k = reflect.Struct)); [congruence|].
      destruct (decide (k <> reflect.Map)) as [_|Hn]; [eauto|].
      destruct (decide (reflect.Invalid <> reflect.String)) as [_|Hn']; [eauto|].
      exfalso. apply Hn'. discriminate. }
  destruct Hpost as (err & Hshape' & Hpost).
  exists err. split; [exact Hshape'|]. split; [exact Hpost|].
  intros w rest werr Hlive Hf Hpc.
  unfold step. rewrite Hlive, Hpc, Hf, Hpost. simpl. rewrite <- Hf. auto.
Qed.

(** ** Runs *)

Lemma step_crashed (w : World V) ch : crashed w = true -> step MarshalMsg w ch = None.
Proof. intros H. unfold step. rewrite H. reflexivity. Qed.

Lemma exec_crashed (w : World V) sched :
  crashed w = true -> exec MarshalMsg w sched = (w, []).
Proof.
  intros H. induction sched as [|ch rest IH]; simpl; [reflexivity|].
  rewrite step_crashed by exact H. exact IH.
Qed.

Lemma exec_app (w : World V) s1 s2 :
  exec MarshalMsg w (s1 ++ s2) =
  let '(w1, t1) := exec MarshalMsg w s1 in
  let '(w2, t2) := exec MarshalMsg w1 s2 in (w2, t1 ++ t2).
Proof.
  revert w. induction s1 as [|ch rest IH]; intros w; simpl.
  - destruct (exec MarshalMsg w s2); reflexivity.
  - destruct (step MarshalMsg w ch) as [[w1 evs]|]; [|apply IH].
    rewrite IH. destruct (exec MarshalMsg w1 rest) as [w2 t2].
    destruct (exec MarshalMsg w2 s2) as [w3 t3]. rewrite app_assoc. reflexivity.
Qed.

(** A state property kept by every step, together with a property of the
    events of every step taken from such a state, holds along every run. *)
Lemma exec_invariant (I : World V -> Prop) (P : event -> Prop) :
  (forall w ch w1 evs,
      I w -> step MarshalMsg w ch = Some (w1, evs) -> I w1 /\ Forall P evs) ->
  forall sched w,
    I w -> I (exec MarshalMsg w sched).1 /\ Forall P (exec MarshalMsg w sched).2.
Proof.
  intros Hstep sched. induction sched as [|ch rest IH]; intros w Hw; simpl.
  - split; [exact Hw|constructor].
  - destruct (step MarshalMsg w ch) as [[w1 evs]|] eqn:E; [|apply IH; exact Hw].
    destruct (Hstep _ _ _ _ Hw E) as [Hw1 Hevs].
    specialize (IH w1 Hw1). destruct (exec MarshalMsg w1 rest) as [w2 tr]. simpl in *.
    destruct IH as [IH1 IH2]. split; [exact IH1|]. apply Forall_app. auto.
Qed.

(** What a step inside [send] can do. *)
Lemma send_step_cases (w : World V) pc data werr :
  (exists pcs, send_step w pc data werr = (with_reconnect w pcs, [], None)) \/
  (exists c, conn (fluent w) = Some c /\
     send_step w pc data werr =
       (w, [ev_Write c (buf (fluent w)) werr], Some (Return werr))) \/
  (conn (fluent w) = None /\
     send_step w pc data werr =
       (crash w, [ev_panic nil_pointer_dereference],
        Some (Panics nil_pointer_dereference))).
Proof.
  destruct pc; simpl.
  - left. destruct (send_reconnects (fluent w)).
    + eexists. reflexivity.
    + exists (at_reconnect w). destruct w; reflexivity.
  - right. unfold send_Write. destruct (conn (fluent w)) as [c|]; eauto.
Qed.

Lemma connect_keeps (f : Fluent) dial :
  config (connect f dial).1 = config f /\ buf (connect f dial).1 = buf f.
Proof.
  unfold connect, dialed.
  repeat match goal with |- context [if ?b then _ else _] => destruct b end;
    try match goal with |- context [match ?r with inl _ => _ | inr _ => _ end] =>
      destruct r end; simpl; auto.
Qed.

Lemma reconnect_step_keeps (f : Fluent) pc dial f1 evs pc1 :
  reconnect_step f pc dial = Some (f1, evs, pc1) ->
  config f1 = config f /\ buf f1 = buf f /\
  Forall (fun ev => forall c p err, ev <> ev_Write c p err) evs /\
  Forall (fun ev => forall c, ev <> ev_Close c) evs.
Proof.
  destruct pc as [i|i d|]; simpl; [| |discriminate].
  - pose proof (connect_keeps f dial) as [Hc Hb].
    destruct (connect f dial) as [f' err]. simpl in *.
    destruct err as [err|].
    + destruct (i =? MaxRetry (config f')); intros [= <- <- <-];
        repeat split; auto; repeat constructor; discriminate.
    + intros [= <- <- <-]. repeat split; auto; repeat constructor; discriminate.
  - intros [= <- <- <-]. repeat split; auto; repeat constructor; discriminate.
Qed.

(** ** What reaches the buffer and the wire *)

Lemma PostRawData_nil (f : Fluent) data : PostRawData f data = [].
Proof. reflexivity. Qed.

Lemma EncodeAndPostData_AsyncPost (f : Fluent) tag tm kv b :
  EncodeAndPostData MarshalMsg f tag tm kv = AsyncPost b -> b = [].
Proof.
  unfold EncodeAndPostData. destruct (EncodeData _ _ _ _); [|discriminate].
  destruct (SyncPost _); [discriminate|]. intros [= <-]. reflexivity.
Qed.

Lemma PostWithTime_AsyncPost (f : Fluent) tag tm (m : Message V) b :
  PostWithTime MarshalMsg f tag tm m = AsyncPost b -> b = [].
Proof.
  unfold PostWithTime. destruct (Type_ (ValueOf m)); [|discriminate].
  repeat match goal with
         | |- context [decide ?P] => destruct (decide P)
         | |- context [struct_record ?a ?b] => destruct (struct_record a b)
         end; try discriminate; apply EncodeAndPostData_AsyncPost.
Qed.

Lemma begin_call_nothing_pending (w : World V) a rest w1 evs :
  (forall b, a = AsyncPost b -> b = []) ->
  nothing_pending w -> begin_call w a rest = (w1, evs) ->
  nothing_pending w1 /\ Forall empty_write evs /\
  at_spooler w1 = at_spooler w /\ at_sender w1 = at_sender w.
Proof.
  intros Ha [Hb Hc]. unfold nothing_pending.
  destruct a as [[err|p]|data|b]; simpl; intros [= <- <-]; simpl;
    repeat split; auto; try discriminate;
    try (repeat constructor; intros ? ? ? ?; discriminate).
  intros b' rest' [= <- <-]. apply Ha. reflexivity.
Qed.

Lemma spooler_postCh_nil (f : Fluent) : buf f = [] -> buf (spooler_postCh f []) = [].
Proof.
  intros H. unfold spooler_postCh. simpl. rewrite H. simpl.
  destruct (len _ >? _); reflexivity.
Qed.

Lemma spooler_sendChCh_eq (f : Fluent) : spooler_sendChCh f = (set_buf f [], []).
Proof. reflexivity. Qed.

Ltac empty_writes Hb :=
  repeat constructor; intros ? ? ? Hev; try discriminate Hev;
  injection Hev as _ <- _; exact Hb.

Lemma step_keeps_nothing_pending (w : World V) ch w1 evs :
  nothing_pending w -> step MarshalMsg w ch = Some (w1, evs) ->
  nothing_pending w1 /\ Forall empty_write evs.
Proof.
  intros Hw. pose proof Hw as [Hb Hc]. unfold step.
  destruct (crashed w); [discriminate|].
  destruct ch as [werr| | | | | | |werr|werr|k dial].
  - destruct (at_caller w) as [[|[now tag m|tag tm m|] rest]|b rest|pc data rest] eqn:Epc.
    + discriminate.
    + intros [= H]. eapply begin_call_nothing_pending in H as (? & ? & _); eauto.
      intros b. apply PostWithTime_AsyncPost.
    + intros [= H]. eapply begin_call_nothing_pending in H as (? & ? & _); eauto.
      intros b. apply PostWithTime_AsyncPost.
    + simpl. intros [= <- <-]. split.
      * split; [exact Hb|]. simpl. discriminate.
      * repeat constructor. intros ? ? ? ?; discriminate.
    + discriminate.
    + destruct (send_step_cases w pc data werr) as [[pcs E]|[(c & Hconn & E)|[Hconn E]]];
        rewrite E; intros [= <- <-].
      * split; [split; [exact Hb|simpl; discriminate]|constructor].
      * split; [split; [exact Hb|simpl; discriminate]|].
        empty_writes Hb.
      * split; [split; [exact Hb|simpl; rewrite Epc; discriminate]|].
        repeat constructor; intros ? ? ? ?; discriminate.
  - destruct (at_caller w) as [|b rest|] eqn:Epc; try discriminate.
    destruct (at_spooler w); try discriminate.
    intros [= <- <-]. rewrite (Hc b rest eq_refl). split.
    + split; [simpl; apply spooler_postCh_nil; exact Hb|simpl; discriminate].
    + repeat constructor. intros ? ? ? ?; discriminate.
  - destruct (at_sender w); try discriminate.
    destruct (at_spooler w); try discriminate.
    rewrite spooler_sendChCh_eq. intros [= <- <-].
    split; [split; [reflexivity|exact Hc]|constructor].
  - destruct (at_spooler w); try discriminate.
    destruct (at_sender w); try discriminate.
    intros [= <- <-]. split; [exact Hw|constructor].
  - destruct (at_sender w); try discriminate.
    destruct (ctx_done w); [|discriminate].
    intros [= <- <-]. split; [exact Hw|constructor].
  - destruct (at_spooler w); try discriminate.
    destruct (ctx_done w); [|discriminate].
    intros [= <- <-]. split; [exact Hw|constructor].
  - destruct (at_sender w); try discriminate.
    destruct (at_spooler w); try discriminate.
    intros [= <- <-]. split; [exact Hw|constructor].
  - destruct (at_sender w) as [| |pc data| |]; try discriminate.
    destruct (send_step_cases w pc data werr) as [[pcs E]|[(c & Hconn & E)|[Hconn E]]];
      rewrite E; intros [= <- <-].
    + split; [exact Hw|constructor].
    + split; [exact Hw|].
      empty_writes Hb.
    + split; [exact Hw|]. repeat constructor; intros ? ? ? ?; discriminate.
  - destruct (at_spooler w) as [| | |pc data| |]; try discriminate.
    + destruct (send_step_cases w pc data werr) as [[pcs E]|[(c & Hconn & E)|[Hconn E]]];
        rewrite E; intros [= <- <-].
      * split; [exact Hw|constructor].
      * split; [exact Hw|].
        empty_writes Hb.
      * split; [exact Hw|]. repeat constructor; intros ? ? ? ?; discriminate.
    + unfold close, flushBuffer. simpl.
      destruct (conn (fluent w)); intros [= <- <-];
        (split; [split; [reflexivity|exact Hc]|]);
        repeat constructor; intros ? ? ? ?; discriminate.
  - destruct (at_reconnect w !! k) as [pc|]; [|discriminate].
    destruct (reconnect_step (fluent w) pc dial) as [[[f1 evs1] pc1]|] eqn:E;
      [|discriminate].
    apply reconnect_step_keeps in E as (_ & Hbuf & Hwr & _).
    assert (Forall empty_write evs1).
    { eapply Forall_impl; [exact Hwr|]. intros ev Hev c p err ->.
      exfalso. eapply Hev. reflexivity. }
    destruct pc1; intros [= <- <-];
      (split; [split; [simpl; congruence|exact Hc]|assumption]).
Qed.

Lemma begin_call_positions (w : World V) a rest w1 evs :
  begin_call w a rest = (w1, evs) ->
  at_spooler w1 = at_spooler w /\ at_sender w1 = at_sender w /\
  fluent w1 = fluent w /\ Forall (fun ev => is_Close ev = false) evs.
Proof.
  destruct a as [[err|p]|data|b]; simpl; intros [= <- <-]; simpl;
    repeat split; repeat constructor.
Qed.

(** The spooler and the sender stay in step, and no step taken while they
    are closes a connection. *)
Lemma step_keeps_in_step (w : World V) ch w1 evs :
  in_step (at_spooler w) (at_sender w) ->
  step MarshalMsg w ch = Some (w1, evs) ->
  in_step (at_spooler w1) (at_sender w1) /\
  Forall (fun ev => is_Close ev = false) evs.
Proof.
  intros Hw. unfold step.
  destruct (crashed w); [discriminate|].
  destruct ch as [werr| | | | | | |werr|werr|k dial].
  - destruct (at_caller w) as [[|[now tag m|tag tm m|] rest]|b rest|pc data rest].
    + discriminate.
    + intros [= H]. apply begin_call_positions in H as (-> & -> & _ & ?). auto.
    + intros [= H]. apply begin_call_positions in H as (-> & -> & _ & ?). auto.
    + simpl. intros [= <- <-]. split; [exact Hw|repeat constructor].
    + discriminate.
    + destruct (send_step_cases w pc data werr) as [[pcs E]|[(c & Hconn & E)|[Hconn E]]];
        rewrite E; intros [= <- <-]; (split; [exact Hw|repeat constructor]).
  - destruct (at_caller w); try discriminate.
    destruct (at_spooler w) eqn:Esp; try discriminate.
    intros [= <- <-]. split; [simpl; rewrite Esp; exact Hw|repeat constructor].
  - destruct (at_sender w); try discriminate.
    destruct (at_spooler w); try discriminate.
    rewrite spooler_sendChCh_eq. intros [= <- <-]. split; [exact I|constructor].
  - destruct (at_spooler w); try discriminate.
    destruct (at_sender w); try discriminate.
    intros [= <- <-]. split; [exact I|constructor].
  - destruct (at_sender w); try discriminate.
    destruct (ctx_done w); [|discriminate].
    intros [= <- <-]. split; [|constructor].
    simpl. destruct (at_spooler w); try contradiction. exact I.
  - destruct (at_spooler w); try discriminate.
    destruct (ctx_done w); [|discriminate].
    intros [= <- <-]. split; [|constructor].
    simpl. destruct (at_sender w); try contradiction; exact I.
  - destruct (at_sender w); try discriminate.
    destruct (at_spooler w); try discriminate. contradiction.
  - destruct (at_sender w) as [| |pc data| |] eqn:Esd; try discriminate.
    destruct (send_step_cases w pc data werr) as [[pcs E]|[(c & Hconn & E)|[Hconn E]]];
      rewrite E; intros [= <- <-]; simpl; (split; [|repeat constructor]).
    + destruct (at_spooler w); try contradiction; exact I.
    + destruct (at_spooler w); try contradiction; exact I.
    + rewrite Esd. exact Hw.
  - destruct (at_spooler w) as [| | |pc data| |]; try discriminate; contradiction.
  - destruct (at_reconnect w !! k) as [pc|]; [|discriminate].
    destruct (reconnect_step (fluent w) pc dial) as [[[f1 evs1] pc1]|] eqn:E;
      [|discriminate].
    apply reconnect_step_keeps in E as (_ & _ & _ & Hcl).
    assert (Forall (fun ev => is_Close ev = false) evs1).
    { eapply Forall_impl; [exact Hcl|]. intros ev Hev.
      destruct ev; try reflexivity. exfalso. eapply Hev. reflexivity. }
    destruct pc1; intros [= <- <-]; (split; [exact Hw|assumption]).
Qed.

Lemma in_step_not_past_join sp sd : in_step sp sd -> ~ past_join sp.
Proof. destruct sp, sd; simpl; tauto. Qed.

(** ** The buffer *)

Lemma begin_call_fluent (w : World V) a rest : fluent (begin_call w a rest).1 = fluent w.
Proof. destruct a as [[err|p]|data|b]; reflexivity. Qed.

Lemma send_step_fluent (w : World V) pc data werr :
  fluent (send_step w pc data werr).1.1 = fluent w.
Proof.
  destruct (send_step_cases w pc data werr) as [[pcs E]|[(c & _ & E)|[_ E]]];
    rewrite E; reflexivity.
Qed.

(** Every step leaves the configuration alone, and the buffer too unless it
    empties it or is the spooler receiving from [postCh] (lines 259-263). *)
Lemma step_buffer (w : World V) ch w1 evs :
  step MarshalMsg w ch = Some (w1, evs) ->
  config (fluent w1) = config (fluent w) /\
  (buf (fluent w1) = buf (fluent w) \/
   buf (fluent w1) = [] \/
   ch = meet_postCh /\
   exists data rest,
     at_caller w = caller_postCh_send data rest /\
     at_spooler w = spooler_select /\
     fluent w1 = spooler_postCh (fluent w) data).
Proof.
  unfold step. destruct (crashed w); [discriminate|].
  destruct ch as [werr| | | | | | |werr|werr|k dial].
  - destruct (at_caller w) as [[|[now tag m|tag tm m|] rest]|b rest|pc data rest].
    + discriminate.
    + intros [= H]. apply (f_equal fst) in H. simpl in H. subst w1.
      rewrite begin_call_fluent. auto.
    + intros [= H]. apply (f_equal fst) in H. simpl in H. subst w1.
      rewrite begin_call_fluent. auto.
    + intros [= <- <-]. auto.
    + discriminate.
    + pose proof (send_step_fluent w pc data werr) as Hf.
      destruct (send_step w pc data werr) as [[w2 evs2] [[err|p]|]]; simpl in Hf;
        intros [= <- <-]; simpl; rewrite Hf; auto.
  - destruct (at_caller w) as [|b rest|]; try discriminate.
    destruct (at_spooler w); try discriminate.
    intros [= <- <-]. simpl. split.
    + unfold spooler_postCh. destruct (len _ >? _); reflexivity.
    + right. right. split; [reflexivity|]. exists b, rest. auto.
  - destruct (at_sender w); try discriminate.
    destruct (at_spooler w); try discriminate.
    rewrite spooler_sendChCh_eq. intros [= <- <-]. simpl. auto.
  - destruct (at_spooler w); try discriminate.
    destruct (at_sender w); try discriminate. intros [= <- <-]. auto.
  - destruct (at_sender w); try discriminate.
    destruct (ctx_done w); [|discriminate]. intros [= <- <-]. auto.
  - destruct (at_spooler w); try discriminate.
    destruct (ctx_done w); [|discriminate]. intros [= <- <-]. auto.
  - destruct (at_sender w); try discriminate.
    destruct (at_spooler w); try discriminate. intros [= <- <-]. auto.
  - destruct (at_sender w) as [| |pc data| |]; try discriminate.
    pose proof (send_step_fluent w pc data werr) as Hf.
    destruct (send_step w pc data werr) as [[w2 evs2] [[err|p]|]]; simpl in Hf;
      intros [= <- <-]; simpl; rewrite Hf; auto.
  - destruct (at_spooler w) as [| | |pc data| |]; try discriminate.
    + pose proof (send_step_fluent w pc data werr) as Hf.
      destruct (send_step w pc data werr) as [[w2 evs2] [[err|p]|]]; simpl in Hf;
        intros [= <- <-]; simpl; rewrite Hf; auto.
    + unfold close, flushBuffer. simpl.
      destruct (conn (fluent w)); intros [= <- <-]; simpl; auto.
  - destruct (at_reconnect w !! k) as [pc|]; [|discriminate].
    destruct (reconnect_step (fluent w) pc dial) as [[[f1 evs1] pc1]|] eqn:E;
      [|discriminate].
    apply reconnect_step_keeps in E as (Hc & Hbuf & _ & _).
    destruct pc1; intros [= <- <-]; simpl; auto.
Qed.

Lemma spooler_postCh_within_limit (f : Fluent) data :
  0 <= BufferLimit (config f) ->
  len (buf (spooler_postCh f data)) <= BufferLimit (config f).
Proof.
  intros Hl. unfold spooler_postCh. simpl.
  destruct (len (buf f ++ data) >? BufferLimit (config f)) eqn:E; simpl.
  - exact Hl.
  - rewrite Z.gtb_ltb in E. apply Z.ltb_ge in E. exact E.
Qed.

(** ** Closing *)

Lemma no_Close_closes evs :
  Forall (fun ev => is_Close ev = false) evs -> closes evs = 0%nat.
Proof.
  unfold closes. induction 1 as [|ev evs Hev _ IH]; [reflexivity|].
  simpl. rewrite Hev. exact IH.
Qed.

Lemma closes_app t1 t2 : closes (t1 ++ t2) = (closes t1 + closes t2)%nat.
Proof. unfold closes. rewrite List.filter_app, length_app. reflexivity. Qed.

Lemma send_step_no_Close (w : World V) pc data werr :
  closes (send_step w pc data werr).1.2 = 0%nat.
Proof.
  destruct (send_step_cases w pc data werr) as [[pcs E]|[(c & _ & E)|[_ E]]];
    rewrite E; reflexivity.
Qed.

Lemma send_step_at_spooler (w : World V) pc data werr :
  at_spooler (send_step w pc data werr).1.1 = at_spooler w.
Proof.
  destruct (send_step_cases w pc data werr) as [[pcs E]|[(c & _ & E)|[_ E]]];
    rewrite E; reflexivity.
Qed.

(** A step uses up what it closes. *)
Lemma step_closes (w : World V) ch w1 evs :
  step MarshalMsg w ch = Some (w1, evs) ->
  (closes evs + closes_left (at_spooler w1) <= closes_left (at_spooler w))%nat.
Proof.
  unfold step. destruct (crashed w); [discriminate|].
  destruct ch as [werr| | | | | | |werr|werr|k dial].
  - destruct (at_caller w) as [[|[now tag m|tag tm m|] rest]|b rest|pc data rest].
    + discriminate.
    + intros [= H]. apply begin_call_positions in H as (-> & _ & _ & H).
      rewrite (no_Close_closes _ H). simpl. lia.
    + intros [= H]. apply begin_call_positions in H as (-> & _ & _ & H).
      rewrite (no_Close_closes _ H). simpl. lia.
    + intros [= <- <-]; simpl; rewrite ?Esp; simpl; lia.
    + discriminate.
    + pose proof (send_step_no_Close w pc data werr) as Hc.
      pose proof (send_step_at_spooler w pc data werr) as Hs.
      destruct (send_step w pc data werr) as [[w2 evs2] [[err|p]|]]; simpl in Hc, Hs;
        intros [= <- <-]; simpl; rewrite ?closes_app, Hc, Hs; simpl; lia.
  - destruct (at_caller w) as [|b rest|]; try discriminate.
    destruct (at_spooler w) eqn:Esp; try discriminate. intros [= <- <-]; simpl; rewrite ?Esp; simpl; lia.
  - destruct (at_sender w); try discriminate.
    destruct (at_spooler w) eqn:Esp; try discriminate.
    rewrite spooler_sendChCh_eq. intros [= <- <-]; simpl; rewrite ?Esp; simpl; lia.
  - destruct (at_spooler w) eqn:Esp; try discriminate.
    destruct (at_sender w); try discriminate. intros [= <- <-]; simpl; rewrite ?Esp; simpl; lia.
  - destruct (at_sender w); try discriminate.
    destruct (ctx_done w); [|discriminate]. intros [= <- <-]; simpl; rewrite ?Esp; simpl; lia.
  - destruct (at_spooler w) eqn:Esp; try discriminate.
    destruct (ctx_done w); [|discriminate]. intros [= <- <-]; simpl; rewrite ?Esp; simpl; lia.
  - destruct (at_sender w); try discriminate.
    destruct (at_spooler w) eqn:Esp; try discriminate. intros [= <- <-]; simpl; rewrite ?Esp; simpl; lia.
  - destruct (at_sender w) as [| |pc data| |]; try discriminate.
    pose proof (send_step_no_Close w pc data werr) as Hc.
    pose proof (send_step_at_spooler w pc data werr) as Hs.
    destruct (send_step w pc data werr) as [[w2 evs2] [[err|p]|]]; simpl in Hc, Hs;
      intros [= <- <-]; simpl; rewrite Hc, Hs; simpl; lia.
  - destruct (at_spooler w) as [| | |pc data| |] eqn:Esp; try discriminate.
    + pose proof (send_step_no_Close w pc data werr) as Hc.
      pose proof (send_step_at_spooler w pc data werr) as Hs.
      destruct (send_step w pc data werr) as [[w2 evs2] [[err|p]|]]; simpl in Hc, Hs;
        intros [= <- <-]; simpl; rewrite Hc, ?Hs, ?Esp; simpl; lia.
    + unfold close, flushBuffer. simpl.
      destruct (conn (fluent w)); intros [= <- <-]; simpl; lia.
  - destruct (at_reconnect w !! k) as [pc|]; [|discriminate].
    destruct (reconnect_step (fluent w) pc dial) as [[[f1 evs1] pc1]|] eqn:E;
      [|discriminate].
    apply reconnect_step_keeps in E as (_ & _ & _ & Hcl).
    assert (Hno : closes evs1 = 0%nat).
    { apply no_Close_closes. eapply Forall_impl; [exact Hcl|]. intros ev Hev.
      destruct ev; try reflexivity. exfalso. eapply Hev. reflexivity. }
    destruct pc1; intros [= <- <-]; simpl; rewrite Hno; simpl; lia.
Qed.

Lemma exec_closes (w : World V) sched :
  (closes (exec MarshalMsg w sched).2
     + closes_left (at_spooler (exec MarshalMsg w sched).1)
   <= closes_left (at_spooler w))%nat.
Proof.
  revert w. induction sched as [|ch rest IH]; intros w; simpl; [lia|].
  destruct (step MarshalMsg w ch) as [[w1 evs]|] eqn:E; [|apply IH].
  apply step_closes in E. specialize (IH w1).
  destruct (exec MarshalMsg w1 rest) as [w2 tr]. simpl in *.
  rewrite closes_app. lia.
Qed.

(** A successful [New] returns a client with a live connection and an empty
    buffer, and then starts the spooler: the state [started] describes. *)
Lemma New_success (config0 : Config) (dial : Dialer) (f : Fluent) :
  New config0 dial = (f, None) ->
  exists c, f = {| config := New_defaults config0; conn := Some c; buf := nil_slice |}.
Proof.
  unfold New, connect. simpl.
  destruct (String.eqb _ "tcp"); [|destruct (String.eqb _ "unix")];
    try match goal with |- context [dialed _ ?r] => destruct r end;
    simpl; intros [= <-]; eauto.
Qed.

(** ** The claims about the transport *)

(** C1 (what the code does instead): whatever the calls and the schedule,
    [PostRawData] hands the spooler the empty slice and not the encoded
    bytes, so the buffer stays empty and every write, if any, carries no
    byte; moreover the spooler never gets past waiting for the sender's
    result at line 270, so the final flush is not made and no connection
    is closed. *)
Theorem async_posts_write_nothing (cfg : Config) (c : Conn)
    (prog : list (call V)) (sched : list turn) :
  let f := {| config := cfg; conn := Some c; buf := nil_slice |} in
  let w := (exec MarshalMsg (started f prog) sched).1 in
  let tr := (exec MarshalMsg (started f prog) sched).2 in
  (forall f' data, PostRawData f' data = []) /\
  nothing_pending w /\
  Forall empty_write tr /\
  ~ past_join (at_spooler w) /\
  closes tr = 0%nat.
Proof.
  intros f w tr. split; [reflexivity|].
  assert (H0 : nothing_pending (started f prog)) by (split; [reflexivity|discriminate]).
  assert (H1 : in_step (at_spooler (started f prog)) (at_sender (started f prog)))
    by exact I.
  destruct (exec_invariant nothing_pending empty_write
              step_keeps_nothing_pending sched _ H0) as [Ha Hb].
  destruct (exec_invariant (fun w => in_step (at_spooler w) (at_sender w))
              (fun ev => is_Close ev = false)
              step_keeps_in_step sched _ H1) as [Hc Hd].
  repeat split; try assumption; try apply Ha.
  - eapply in_step_not_past_join. exact Hc.
  - apply no_Close_closes. exact Hd.
Qed.

(** C2 (what the code does instead): with the synchronous flag set and the
    event encoded to [data], [EncodeAndPostData] continues as
    [f.send(data)], and that call writes the buffer [f.buf], not [data];
    it does not touch the buffer and returns the write's error. *)
Theorem sync_post_writes_the_buffer (cfg : Config) (c : Conn) (b : bytes)
    (tag : string) (tm : Time) (kv : gmap string V) (data : bytes)
    (werr : option error) (rest : list (call V)) :
  SyncPost cfg = true ->
  EncodeData MarshalMsg tag tm kv = inl data ->
  let f := {| config := cfg; conn := Some c; buf := b |} in
  let w := with_caller (started f []) (caller_send send_conn_check data rest) in
  EncodeAndPostData MarshalMsg f tag tm kv = SyncSend data /\
  send f data werr = (false, [ev_Write c b werr], Return werr) /\
  exec MarshalMsg w [run_caller None; run_caller werr] =
    (with_caller w (between_calls rest),
     [ev_Write c b werr; ev_return (Return werr)]).
Proof.
  intros Hsync Henc f w. unfold EncodeAndPostData. rewrite Henc. simpl.
  rewrite Hsync. auto.
Qed.

(** C6, amended: if the limit is not negative and the buffer is within it,
    the buffer is within it after every run; each step leaves the buffer as it
    is, empties it, or is the spooler's receive of lines 259-263, which
    appends and then empties the buffer if it has grown over the limit. *)
Theorem buffer_within_limit (w : World V) (sched : list turn) :
  0 <= BufferLimit (config (fluent w)) ->
  len (buf (fluent w)) <= BufferLimit (config (fluent w)) ->
  len (buf (fluent (exec MarshalMsg w sched).1))
    <= BufferLimit (config (fluent (exec MarshalMsg w sched).1)) /\
  (forall f data,
      spooler_postCh f data =
        if len (buf f ++ data) >? BufferLimit (config f)
        then set_buf f [] else set_buf f (buf f ++ data)) /\
  (forall w0 ch w1 evs,
      step MarshalMsg w0 ch = Some (w1, evs) ->
      len (buf (fluent w0)) < len (buf (fluent w1)) ->
      ch = meet_postCh /\
      exists data rest,
        at_caller w0 = caller_postCh_send data rest /\
        at_spooler w0 = spooler_select /\
        fluent w1 = spooler_postCh (fluent w0) data).
Proof.
  intros Hl Hb. split; [|split].
  - pose (I := fun w : World V =>
                 0 <= BufferLimit (config (fluent w)) /\
                 len (buf (fluent w)) <= BufferLimit (config (fluent w))).
    assert (Hstep : forall w ch w1 evs,
               I w -> step MarshalMsg w ch = Some (w1, evs) ->
               I w1 /\ Forall (fun _ => True) evs).
    { intros w0 ch w1 evs [H0 H1] E. split; [|apply Forall_forall; auto].
      apply step_buffer in E as [Hc [Hsame|[Hnil|(_ & data & rest & _ & _ & Hf)]]];
        unfold I; rewrite Hc; split; try exact H0.
      - rewrite Hsame. exact H1.
      - rewrite Hnil. exact H0.
      - rewrite Hf. apply spooler_postCh_within_limit. exact H0. }
    apply (exec_invariant I _ Hstep sched w). split; assumption.
  - intros f data. unfold spooler_postCh. simpl.
    destruct (len _ >? _); reflexivity.
  - intros w0 ch w1 evs E Hgrow.
    apply step_buffer in E as [_ [Hsame|[Hnil|H]]].
    + rewrite Hsame in Hgrow. lia.
    + rewrite Hnil in Hgrow. unfold len in Hgrow. simpl in Hgrow. lia.
    + exact H.
Qed.

(** C7 (what the code does instead): [send] on an absent connection starts
    the reconnect goroutine and goes straight on to the write; run without
    another goroutine in between, the write is a method call on the nil
    handle and panics before any connect attempt.  On a present
    connection the only write's error is returned. *)
Theorem send_on_absent_connection_panics (cfg : Config) (b data : bytes)
    (c : Conn) (werr : option error) :
  let f := {| config := cfg; conn := None; buf := b |} in
  let w := with_sender (started f ([] : list (call V)))
             (sender_send send_conn_check data) in
  send f data werr =
    (true, [ev_panic nil_pointer_dereference], Panics nil_pointer_dereference) /\
  exec MarshalMsg w [run_sender None; run_sender werr] =
    (crash (with_sender (with_reconnect w [reconnect_connect 0])
              (sender_send send_conn_Write data)),
     [ev_panic nil_pointer_dereference]) /\
  send {| config := cfg; conn := Some c; buf := b |} data werr =
    (false, [ev_Write c b werr], Return werr).
Proof. intros f w. repeat split; reflexivity. Qed.

(** C9: [Close] returns nil and a second [Close] changes nothing and
    returns nil again; in every run from every state at most one
    [Close()] is called on a connection; [close] on an absent connection
    does nothing, and so does a second [close]. *)
Theorem Close_idempotent (w : World V) (f : Fluent) (rest : list (call V))
    (sched : list turn) :
  Close w = (with_done w true, Return None) /\
  Close (Close w).1 = ((Close w).1, Return None) /\
  exec MarshalMsg (started f (call_Close :: call_Close :: rest))
       [run_caller None; run_caller None] =
    (with_done (started f rest) true,
     [ev_return (Return None); ev_return (Return None)]) /\
  (closes (exec MarshalMsg w sched).2 <= 1)%nat /\
  close (set_conn f None) = (set_conn f None, []) /\
  close (close f).1 = ((close f).1, []).
Proof.
  repeat split.
  - pose proof (exec_closes w sched) as H.
    destruct (at_spooler w); simpl in H; lia.
  - unfold close. destruct (conn f) eqn:E; simpl; [|rewrite E]; reflexivity.
Qed.

(** ** The reconnect loop *)

Lemma int_wrap_small z : - 2 ^ 63 <= z < 2 ^ 63 -> int_wrap z = z.
Proof. intros H. unfold int_wrap. rewrite Z.mod_small; lia. Qed.

Lemma connect_error_by_config (f f0 : Fluent) dial :
  config f0 = config f -> (connect f0 dial).2 = (connect f dial).2.
Proof.
  intros H. unfold connect. rewrite H.
  repeat match goal with |- context [if ?b then _ else _] => destruct b end;
    try reflexivity;
    match goal with |- context [dialed _ ?r] => destruct r end; reflexivity.
Qed.

Lemma connect_result (f : Fluent) dial :
  config (connect f dial).1 = config f /\
  (connect_fails (config f) dial = true -> (connect f dial).2 <> None) /\
  (connect_fails (config f) dial = false ->
     (connect f dial).2 = None /\ conn (connect f dial).1 <> None).
Proof.
  split; [apply connect_keeps|].
  unfold connect_fails.
  rewrite (connect_error_by_config f
             {| config := config f; conn := None; buf := nil_slice |} dial eq_refl).
  unfold connect.
  destruct (String.eqb (FluentNetwork (config f)) "tcp");
    [|destruct (String.eqb (FluentNetwork (config f)) "unix")];
    try match goal with |- context [dialed _ ?r] => destruct r end;
    simpl; repeat split; try discriminate; auto.
Qed.

(** From attempt [i], [S n] failures with [MaxRetry - i = n] end in the
    panic, after exactly [S n] attempts. *)
Lemma reconnect_loop_panics n : forall (f : Fluent) (i : Z) (net : list Dialer),
  0 <= i -> MaxRetry (config f) < 2 ^ 63 - 1 ->
  MaxRetry (config f) - i = Z.of_nat n ->
  (n < length net)%nat ->
  Forall (fun d => connect_fails (config f) d = true) (take (S n) net) ->
  exists f1 tr, reconnect_loop f i net = (f1, tr, panicked) /\
                attempts tr = S n /\
                last tr = Some (ev_panic reconnect_panic).
Proof.
  induction n as [|n IH]; intros f i net Hi Hmax Hn Hlen Hfail;
    (destruct net as [|d net]; [simpl in Hlen; lia|]);
    simpl in Hfail; apply Forall_cons in Hfail as [Hd Hrest];
    destruct (connect_result f d) as (Hcfg & Hf & _); specialize (Hf Hd);
    simpl; destruct (connect f d) as [f1 err]; simpl in *;
    (destruct err as [err|]; [|congruence]);
    rewrite Hcfg.
  - replace (i =? MaxRetry (config f)) with true by (symmetry; apply Z.eqb_eq; lia).
    eexists _, _. split; [reflexivity|]. split; reflexivity.
  - replace (i =? MaxRetry (config f)) with false by (symmetry; apply Z.eqb_neq; lia).
    rewrite int_wrap_small by lia.
    destruct (IH f1 (i + 1) net) as (f2 & tr & E & Hatt & Hlast);
      try rewrite Hcfg; try lia; try assumption.
    rewrite E. eexists _, _. split; [reflexivity|]. split.
    + unfold attempts in *. simpl. rewrite Hatt. reflexivity.
    + change (last (ev_connect i (Some err)
                      :: ev_Sleep (sleep_duration (config f) i) :: tr))
        with (last ([ev_connect i (Some err); ev_Sleep (sleep_duration (config f) i)] ++ tr)).
      rewrite last_app, Hlast. reflexivity.
Qed.

(** Failures that leave a retry, then a success: the loop ends connected. *)
Lemma reconnect_loop_connects pre : forall (f : Fluent) (i : Z) ok post,
  0 <= i -> MaxRetry (config f) < 2 ^ 63 - 1 ->
  Z.of_nat (length pre) <= MaxRetry (config f) - i ->
  Forall (fun d => connect_fails (config f) d = true) pre ->
  connect_fails (config f) ok = false ->
  exists f1 tr, reconnect_loop f i (pre ++ ok :: post) = (f1, tr, connected) /\
                attempts tr = S (length pre) /\
                conn f1 <> None /\
                Forall (fun ev => ev <> ev_panic reconnect_panic) tr.
Proof.
  induction pre as [|d pre IH]; intros f i ok post Hi Hmax Hlen Hfail Hok; simpl.
  - destruct (connect_result f ok) as (_ & _ & Hs). destruct (Hs Hok) as [He Hc].
    destruct (connect f ok) as [f1 err]. simpl in *. subst err.
    eexists _, _. split; [reflexivity|].
    repeat split; auto; repeat constructor; discriminate.
  - apply Forall_cons in Hfail as [Hd Hrest].
    destruct (connect_result f d) as (Hcfg & Hf & _). specialize (Hf Hd).
    destruct (connect f d) as [f1 err]. simpl in *.
    destruct err as [err|]; [|congruence]. rewrite Hcfg.
    replace (i =? MaxRetry (config f)) with false by (symmetry; apply Z.eqb_neq; lia).
    rewrite int_wrap_small by lia.
    destruct (IH f1 (i + 1) ok post) as (f2 & tr & E & Hatt & Hconn & Hnp);
      try rewrite Hcfg; try lia; try assumption.
    rewrite E. eexists _, _. split; [reflexivity|]. split; [|split; [exact Hconn|]].
    + unfold attempts in *. simpl. rewrite Hatt. reflexivity.
    + repeat constructor; try discriminate. exact Hnp.
Qed.

(** In the trace of the loop started at attempt [i0], attempt [i0] comes
    first and every later attempt [i] comes right after the sleep computed
    from [i - 1]. *)
Lemma reconnect_loop_trace net : forall (f : Fluent) (i0 : Z) pre i err post,
  0 <= i0 <= MaxRetry (config f) -> MaxRetry (config f) < 2 ^ 63 - 1 ->
  (reconnect_loop f i0 net).1.2 = pre ++ ev_connect i err :: post ->
  i = i0 /\ pre = [] \/
  i0 < i <= MaxRetry (config f) /\
  exists pre', pre = pre' ++ [ev_Sleep (sleep_duration (config f) (i - 1))].
Proof.
  induction net as [|d net IH]; intros f i0 pre i err post Hi Hmax; simpl.
  - intros H. destruct pre; discriminate H.
  - pose proof (connect_keeps f d) as [Hcfg _].
    destruct (connect f d) as [f1 err1]. simpl in Hcfg.
    destruct err1 as [err1|]; simpl.
    + rewrite Hcfg. destruct (i0 =? MaxRetry (config f)) eqn:Ei; simpl.
      * intros H. destruct pre as [|x pre]; simpl in H.
        -- injection H as -> _ _. auto.
        -- injection H as _ H. destruct pre as [|y pre]; simpl in H;
             [discriminate H|]. injection H as _ H. destruct pre; discriminate H.
      * apply Z.eqb_neq in Ei. rewrite int_wrap_small by lia.
        specialize (IH f1 (i0 + 1)).
        destruct (reconnect_loop f1 (i0 + 1) net) as [[f2 tr] r]. simpl in *.
        intros H. destruct pre as [|x pre]; simpl in H.
        -- injection H as -> _ _. auto.
        -- injection H as <- H. destruct pre as [|y pre]; simpl in H;
             [discriminate H|]. injection H as <- H.
           right. rewrite Hcfg in IH.
           destruct (IH pre i err post ltac:(lia) Hmax H) as [[-> ->]|[Hlt [pre' ->]]].
           ++ split; [lia|]. exists [ev_connect i0 (Some err1)].
              replace (i0 + 1 - 1) with i0 by lia. reflexivity.
           ++ split; [lia|].
              exists (ev_connect i0 (Some err1)
                        :: ev_Sleep (sleep_duration (config f) i0) :: pre').
              reflexivity.
    + intros H. destruct pre as [|x pre]; simpl in H.
      * injection H as -> _ _. auto.
      * injection H as _ H. destruct pre; discriminate H.
Qed.

(** [e(1.5, y)] for the exponents of a loop with at most 34 retries. *)
Lemma e_bounds y :
  -1 <= y <= 32 -> 0 <= e defaultReconnectWaitIncreRate y <= 647159.
Proof.
  intros Hy.
  assert (Hall : forallb (fun k : nat =>
                    let v := e defaultReconnectWaitIncreRate (Z.of_nat k - 1) in
                    (0 <=? v) && (v <=? 647159)) (seq 0 34) = true)
    by (vm_compute; reflexivity).
  rewrite forallb_forall in Hall.
  specialize (Hall (Z.to_nat (y + 1))).
  replace (Z.of_nat (Z.to_nat (y + 1)) - 1) with y in Hall by lia.
  assert (Hin : In (Z.to_nat (y + 1)) (seq 0 34)) by (apply in_seq; lia).
  apply Hall in Hin. apply andb_true_iff in Hin as [H1 H2].
  apply Z.leb_le in H1. apply Z.leb_le in H2. lia.
Qed.

Lemma sleep_duration_exact (cfg : Config) (i : Z) :
  0 <= RetryWait cfg <= 10000000 -> 0 <= i <= 33 ->
  sleep_duration cfg i =
    RetryWait cfg * e defaultReconnectWaitIncreRate (i - 1) * Millisecond.
Proof.
  intros Hw Hi. unfold sleep_duration, waitTime, Millisecond.
  rewrite (int_wrap_small (i - 1)) by lia.
  pose proof (e_bounds (i - 1) ltac:(lia)) as He.
  rewrite (int_wrap_small (RetryWait cfg * _)) by nia.
  apply int_wrap_small. nia.
Qed.

Lemma reconnect_step_panic (f : Fluent) i dial :
  (exists f1 evs, reconnect_step f (reconnect_connect i) dial = Some (f1, evs, None))
  <-> connect_fails (config f) dial = true /\ i = MaxRetry (config f).
Proof.
  destruct (connect_result f dial) as (Hcfg & Hf & Hs). simpl.
  destruct (connect f dial) as [f1 err]. simpl in *. rewrite Hcfg.
  destruct (connect_fails (config f) dial).
  - specialize (Hf eq_refl). destruct err as [err|]; [|congruence].
    destruct (i =? MaxRetry (config f)) eqn:Ei.
    + apply Z.eqb_eq in Ei. split; [auto|]. intros _. eauto.
    + apply Z.eqb_neq in Ei. split; [|tauto]. intros (? & ? & [=]).
  - destruct (Hs eq_refl) as [-> _]. split; [|intros [[=] _]].
    intros (? & ? & [=]).
Qed.

Lemma reconnect_step_goes_on (f : Fluent) pc dial f1 evs pc1 :
  reconnect_step f pc dial = Some (f1, evs, Some pc1) ->
  ~ In (ev_panic reconnect_panic) evs.
Proof.
  destruct pc as [i|i d|]; simpl; [| |discriminate].
  - destruct (connect f dial) as [f' [err|]].
    + destruct (i =? MaxRetry (config f')); intros [= <- <- <-].
      simpl. intros [[=]|[]].
    + intros [= <- <- <-]. simpl. intros [[=]|[]].
  - intros [= <- <- <-]. simpl. intros [[=]|[]].
Qed.

(** C4, amended: the loop panics exactly when the attempt with index
    [MaxRetry] fails, that is after [MaxRetry + 1] consecutive failed
    attempts (attempts [0] to [MaxRetry]); a success among them ends the
    loop connected, without a panic; and the panic ends the process, after
    which nothing happens any more. *)
Theorem reconnect_gives_up_after_MaxRetry_retries (f : Fluent) :
  0 <= MaxRetry (config f) < 2 ^ 63 - 1 ->
  (forall i dial,
      (exists f1 evs,
          reconnect_step f (reconnect_connect i) dial = Some (f1, evs, None))
      <-> connect_fails (config f) dial = true /\ i = MaxRetry (config f)) /\
  (forall net,
      (Z.to_nat (MaxRetry (config f)) < length net)%nat ->
      Forall (fun d => connect_fails (config f) d = true)
             (take (S (Z.to_nat (MaxRetry (config f)))) net) ->
      exists f1 tr,
        reconnect_loop f 0 net = (f1, tr, panicked) /\
        attempts tr = S (Z.to_nat (MaxRetry (config f))) /\
        last tr = Some (ev_panic reconnect_panic)) /\
  (forall pre ok post,
      Z.of_nat (length pre) <= MaxRetry (config f) ->
      Forall (fun d => connect_fails (config f) d = true) pre ->
      connect_fails (config f) ok = false ->
      exists f1 tr,
        reconnect_loop f 0 (pre ++ ok :: post) = (f1, tr, connected) /\
        attempts tr = S (length pre) /\
        conn f1 <> None /\
        Forall (fun ev => ev <> ev_panic reconnect_panic) tr) /\
  (forall (w w1 : World V) k dial evs,
      step MarshalMsg w (run_reconnect k dial) = Some (w1, evs) ->
      In (ev_panic reconnect_panic) evs ->
      crashed w1 = true /\
      forall sched, exec MarshalMsg w1 sched = (w1, [])).
Proof.
  intros Hmax. split; [|split; [|split]].
  - intros i dial. apply reconnect_step_panic.
  - intros net Hlen Hfail.
    apply (reconnect_loop_panics (Z.to_nat (MaxRetry (config f)))); try lia; assumption.
  - intros pre ok post Hlen Hfail Hok.
    apply reconnect_loop_connects; try lia; assumption.
  - intros w w1 k dial evs. unfold step.
    destruct (crashed w); [discriminate|].
    destruct (at_reconnect w !! k) as [pc|]; [|discriminate].
    destruct (reconnect_step (fluent w) pc dial) as [[[f1 evs1] [pc1|]]|] eqn:E;
      [| |discriminate]; intros [= <- <-] Hin.
    + exfalso. eapply reconnect_step_goes_on; eassumption.
    + split; [reflexivity|]. intros sched. apply exec_crashed. reflexivity.
Qed.

(** C5, amended: in a run of the loop, attempt 0 is made first, with no
    wait before it, and every attempt [i > 0] is made right after a sleep
    of exactly [RetryWait * e(1.5, i - 2)] milliseconds, where [e]
    truncates the power to an integer and the rate is the constant 1.5;
    so no time is waited before attempt 1 and [RetryWait] ms before
    attempt 2. *)
Theorem reconnect_backoff (f : Fluent) (net : list Dialer)
    (pre post : list event) (i : Z) (err : option error) :
  0 <= RetryWait (config f) <= 10000000 ->
  0 <= MaxRetry (config f) <= 34 ->
  (reconnect_loop f 0 net).1.2 = pre ++ ev_connect i err :: post ->
  (i = 0 /\ pre = [] \/
   0 < i <= MaxRetry (config f) /\
   exists pre',
     pre = pre' ++ [ev_Sleep (RetryWait (config f)
                              * e defaultReconnectWaitIncreRate (i - 2)
                              * Millisecond)]) /\
  defaultReconnectWaitIncreRate = (3 # 2)%Q /\
  e defaultReconnectWaitIncreRate (-1) = 0 /\
  e defaultReconnectWaitIncreRate 0 = 1.
Proof.
  intros Hw Hmax Htr. split; [|repeat split].
  destruct (reconnect_loop_trace net f 0 pre i err post) as [H|[Hi [pre' ->]]];
    try lia; try assumption.
  - left. exact H.
  - right. split; [exact Hi|]. exists pre'.
    rewrite sleep_duration_exact by lia.
    replace (i - 1 - 1) with (i - 2) by lia. reflexivity.
Qed.

End Properties.

(** * Further properties of the code *)

Section Further.

Context {V : Type}.
Variable MarshalMsg : Envelope V -> bytes + error.

(** ** New *)

(** X1: after the defaulting of [New] no port, host, network, timeout,
    buffer limit, retry wait or retry count is zero or empty, so none of
    these can be configured as zero; what was given non-zero is kept, as are
    the socket path, the tag prefix and the synchronous flag; defaulting
    twice is defaulting once. *)
Theorem New_defaults_fills (c : Config) :
  let d := New_defaults c in
  (FluentPort d <> 0 /\ FluentHost d <> "" /\ FluentNetwork d <> "" /\
   Timeout d <> 0 /\ BufferLimit d <> 0 /\ RetryWait d <> 0 /\ MaxRetry d <> 0) /\
  ((FluentPort c <> 0 -> FluentPort d = FluentPort c) /\
   (FluentHost c <> "" -> FluentHost d = FluentHost c) /\
   (FluentNetwork c <> "" -> FluentNetwork d = FluentNetwork c) /\
   (Timeout c <> 0 -> Timeout d = Timeout c) /\
   (BufferLimit c <> 0 -> BufferLimit d = BufferLimit c) /\
   (RetryWait c <> 0 -> RetryWait d = RetryWait c) /\
   (MaxRetry c <> 0 -> MaxRetry d = MaxRetry c)) /\
  (FluentSocketPath d = FluentSocketPath c /\ TagPrefix d = TagPrefix c /\
   SyncPost d = SyncPost c) /\
  New_defaults d = d.
Proof.
  destruct c as [port host network path timeout limit wait retry prefix sync].
  unfold New_defaults. cbn [FluentPort FluentHost FluentNetwork FluentSocketPath
    Timeout BufferLimit RetryWait MaxRetry TagPrefix SyncPost].
  assert (Hz : forall a dflt : Z, dflt <> 0 ->
            (if a =? 0 then dflt else a) <> 0 /\
            (a <> 0 -> (if a =? 0 then dflt else a) = a) /\
            (if (if a =? 0 then dflt else a) =? 0 then dflt
             else (if a =? 0 then dflt else a)) = (if a =? 0 then dflt else a)).
  { intros a dflt Hd. destruct (Z.eqb_spec a 0) as [->|Ha].
    - destruct (Z.eqb_spec dflt 0); [contradiction|]. repeat split; congruence.
    - destruct (Z.eqb_spec a 0); [contradiction|]. auto. }
  assert (Hs : forall a dflt : string, dflt <> "" ->
            (if String.eqb a "" then dflt else a) <> "" /\
            (a <> "" -> (if String.eqb a "" then dflt else a) = a) /\
            (if String.eqb (if String.eqb a "" then dflt else a) "" then dflt
             else (if String.eqb a "" then dflt else a))
            = (if String.eqb a "" then dflt else a)).
  { intros a dflt Hd. destruct (String.eqb_spec a "") as [->|Ha].
    - destruct (String.eqb_spec dflt ""); [contradiction|]. repeat split; congruence.
    - destruct (String.eqb_spec a ""); [contradiction|]. auto. }
  destruct (Hz port defaultPort ltac:(discriminate)) as (P1 & P2 & P3).
  destruct (Hs host defaultHost ltac:(discriminate)) as (H1 & H2 & H3).
  destruct (Hs network defaultNetwork ltac:(discriminate)) as (N1 & N2 & N3).
  destruct (Hz timeout defaultTimeout ltac:(discriminate)) as (T1 & T2 & T3).
  destruct (Hz limit defaultBufferLimit ltac:(discriminate)) as (L1 & L2 & L3).
  destruct (Hz wait defaultRetryWait ltac:(discriminate)) as (W1 & W2 & W3).
  destruct (Hz retry defaultMaxRetry ltac:(discriminate)) as (R1 & R2 & R3).
  assert (Hpath : (if String.eqb path "" then defaultSocketPath else path) = path).
  { destruct (String.eqb_spec path ""); [subst|]; reflexivity. }
  assert (Hsync : (if negb sync then defaultSyncPost else sync) = sync)
    by (destruct sync; reflexivity).
  repeat split; try assumption.
  rewrite P3, H3, N3, T3, L3, W3, R3, !Hpath, !Hsync. reflexivity.
Qed.

(** ** The record adapter *)

Lemma map_record_lookup (entries : list (string * V)) :
  forall kv : gmap string V,
    NoDup (map fst entries) ->
    (forall k, In k (map fst entries) -> kv !! k = None) ->
    forall k v,
      map_record entries kv !! k = Some v <-> kv !! k = Some v \/ In (k, v) entries.
Proof.
  induction entries as [|[k0 v0] rest IH]; intros kv Hnd Hfresh k v; simpl.
  - tauto.
  - apply NoDup_cons in Hnd as [Hk0 Hnd].
    rewrite list_elem_of_In in Hk0.
    rewrite IH; [|exact Hnd|].
    + rewrite lookup_insert_Some. split.
      * intros [[[-> ->]|[_ H]]|H]; auto.
      * intros [H|[[= -> ->]|H]]; auto.
        left. right. split; [|exact H]. intros ->.
        rewrite (Hfresh k) in H by (simpl; auto). discriminate.
    + intros k1 Hk1. rewrite lookup_insert_ne.
      * apply Hfresh. simpl. auto.
      * intros ->. contradiction.
Qed.

Lemma struct_record_exported (fields : list (StructField * V)) :
  forall kv : gmap string V,
    Forall (fun p => PkgPath p.1 = "") fields ->
    struct_record fields kv = inl (map_record (named_fields fields) kv).
Proof.
  induction fields as [|[fld v] rest IH]; intros kv Hex; simpl; [reflexivity|].
  apply Forall_cons in Hex as [Hfld Hrest]. simpl in Hfld.
  rewrite bool_decide_eq_true_2 by exact Hfld. apply IH. exact Hrest.
Qed.

Lemma struct_record_panics (fields : list (StructField * V)) :
  forall (kv : gmap string V) p,
    struct_record fields kv = inr p <->
    p = reflect_Interface_unexported /\ Exists (fun q => PkgPath q.1 <> "") fields.
Proof.
  induction fields as [|[fld v] rest IH]; intros kv p; simpl.
  - split; [discriminate|]. intros [_ H]. inversion H.
  - destruct (decide (PkgPath fld = "")) as [Hfld|Hfld].
    + rewrite bool_decide_eq_true_2 by exact Hfld. rewrite IH.
      split; intros [Hp H]; (split; [exact Hp|]).
      * apply Exists_cons. right. exact H.
      * apply Exists_cons in H as [H|H]; [contradiction|exact H].
    + rewrite bool_decide_eq_false_2 by exact Hfld. split.
      * intros [= <-]. split; [reflexivity|]. apply Exists_cons. left. exact Hfld.
      * intros [-> _]. reflexivity.
Qed.

Lemma EncodeAndPostData_never_panics (f : Fluent) tag tm (kv : gmap string V) p :
  EncodeAndPostData MarshalMsg f tag tm kv <> Done (Panics p).
Proof.
  unfold EncodeAndPostData. destruct (EncodeData _ _ _ _); [|discriminate].
  destruct (SyncPost _); discriminate.
Qed.

Lemma PostWithTime_struct (f : Fluent) tag tm (fields : list (StructField * V)) :
  PostWithTime MarshalMsg f tag tm (StructValue fields) =
  match struct_record fields ∅ with
  | inr p => Done (Panics p)
  | inl kv => EncodeAndPostData MarshalMsg f (tag_with_prefix (config f) tag) tm kv
  end.
Proof. reflexivity. Qed.

Lemma PostWithTime_string_map (f : Fluent) tag tm (entries : list (string * V)) :
  PostWithTime MarshalMsg f tag tm (MapValue reflect.String entries) =
  EncodeAndPostData MarshalMsg f (tag_with_prefix (config f) tag) tm
    (map_record entries ∅).
Proof. reflexivity. Qed.

(** X3: a struct whose fields are all exported and stored under distinct
    names is posted as the record that holds, under the name of each field,
    that field's value and nothing else; the name is the [msg] tag if there
    is one, else the [codec] tag if there is one, else the field's own
    name; the tag handed to the encoder carries the configured prefix. *)
Theorem struct_fields_are_posted (f : Fluent) (tag : string) (tm : Time)
    (fields : list (StructField * V)) :
  Forall (fun p => PkgPath p.1 = "") fields ->
  NoDup (map fst (named_fields fields)) ->
  (exists kv : gmap string V,
      PostWithTime MarshalMsg f tag tm (StructValue fields) =
        EncodeAndPostData MarshalMsg f (tag_with_prefix (config f) tag) tm kv /\
      forall name v,
        kv !! name = Some v <-> exists fld, In (fld, v) fields /\ field_name fld = name) /\
  (forall fld,
      (Tag_Get (Tag fld) "msg" <> "" -> field_name fld = Tag_Get (Tag fld) "msg") /\
      (Tag_Get (Tag fld) "msg" = "" -> Tag_Get (Tag fld) "codec" <> "" ->
       field_name fld = Tag_Get (Tag fld) "codec") /\
      (Tag_Get (Tag fld) "msg" = "" -> Tag_Get (Tag fld) "codec" = "" ->
       field_name fld = Name fld)).
Proof.
  intros Hex Hnd. split.
  - exists (map_record (named_fields fields) ∅). split.
    + rewrite PostWithTime_struct, struct_record_exported by exact Hex. reflexivity.
    + intros name v. rewrite map_record_lookup; [|exact Hnd|intros; apply lookup_empty].
      rewrite lookup_empty. unfold named_fields. rewrite in_map_iff. split.
      * intros [[=]|([fld v1] & [= <- <-] & Hin)]. eauto.
      * intros (fld & Hin & <-). right. exists (fld, v). auto.
  - intros fld. unfold field_name. repeat split.
    + intros H. rewrite bool_decide_eq_true_2 by exact H. reflexivity.
    + intros H1 H2. rewrite bool_decide_eq_false_2 by (intros H; apply H; exact H1).
      rewrite bool_decide_eq_true_2 by exact H2. reflexivity.
    + intros H1 H2. rewrite bool_decide_eq_false_2 by (intros H; apply H; exact H1).
      rewrite bool_decide_eq_false_2 by (intros H; apply H; exact H2). reflexivity.
Qed.

(** X4: posting a struct panics exactly when one of its fields is not
    exported, whatever the other fields, the configuration and the encoder;
    the panic is the one of [reflect.Value.Interface]. *)
Theorem unexported_field_panics (f : Fluent) (tag : string) (tm : Time)
    (fields : list (StructField * V)) (p : panic) :
  PostWithTime MarshalMsg f tag tm (StructValue fields) = Done (Panics p) <->
  p = reflect_Interface_unexported /\ Exists (fun q => PkgPath q.1 <> "") fields.
Proof.
  rewrite PostWithTime_struct. rewrite <- (struct_record_panics fields ∅ p).
  destruct (struct_record fields ∅) as [kv|p1].
  - split; [|discriminate]. intros H. exfalso.
    exact (EncodeAndPostData_never_panics _ _ _ _ _ H).
  - split; [intros [= <-]|intros [= <-]]; reflexivity.
Qed.

(** X5: a map with string keys is posted as the record that holds exactly
    its entries, under the tag with the configured prefix; the nil map is
    posted as the empty record. *)
Theorem string_map_is_posted (f : Fluent) (tag : string) (tm : Time)
    (entries : list (string * V)) :
  NoDup (map fst entries) ->
  exists kv : gmap string V,
    PostWithTime MarshalMsg f tag tm (MapValue reflect.String entries) =
      EncodeAndPostData MarshalMsg f (tag_with_prefix (config f) tag) tm kv /\
    (forall k v, kv !! k = Some v <-> In (k, v) entries) /\
    (entries = [] -> kv = ∅).
Proof.
  intros Hnd. exists (map_record entries ∅). split; [apply PostWithTime_string_map|].
  split.
  - intros k v. rewrite map_record_lookup; [|exact Hnd|intros; apply lookup_empty].
    rewrite lookup_empty. split; [intros [[=]|H]; exact H|auto].
  - intros ->. reflexivity.
Qed.

Lemma map_record_other (entries : list (string * V)) :
  forall (kv : gmap string V) k,
    ~ In k (map fst entries) -> map_record entries kv !! k = kv !! k.
Proof.
  induction entries as [|[k0 v0] rest IH]; intros kv k Hk; simpl; [reflexivity|].
  simpl in Hk. rewrite IH by tauto. apply lookup_insert_ne. intros ->. tauto.
Qed.

Lemma map_record_app (l1 l2 : list (string * V)) :
  forall kv : gmap string V,
    map_record (l1 ++ l2) kv = map_record l2 (map_record l1 kv).
Proof.
  induction l1 as [|[k0 v0] rest IH]; intros kv; simpl; [reflexivity|]. apply IH.
Qed.

(** X17: when several fields of a struct are stored under the same name, the
    record keeps the value of the last of them: a field's value is found
    under its name as soon as no later field has that name. *)
Theorem later_field_wins (f : Fluent) (tag : string) (tm : Time)
    (pre post : list (StructField * V)) (fld : StructField) (v : V) :
  Forall (fun p => PkgPath p.1 = "") (pre ++ (fld, v) :: post) ->
  Forall (fun q => field_name q.1 <> field_name fld) post ->
  exists kv : gmap string V,
    PostWithTime MarshalMsg f tag tm (StructValue (pre ++ (fld, v) :: post)) =
      EncodeAndPostData MarshalMsg f (tag_with_prefix (config f) tag) tm kv /\
    kv !! field_name fld = Some v.
Proof.
  intros Hex Hpost.
  exists (map_record (named_fields (pre ++ (fld, v) :: post)) ∅). split.
  - rewrite PostWithTime_struct, struct_record_exported by exact Hex. reflexivity.
  - unfold named_fields. rewrite map_app, map_record_app. simpl.
    rewrite map_record_other; [apply lookup_insert_eq|].
    rewrite map_map. simpl. rewrite in_map_iff. intros ([fld1 v1] & Hname & Hin).
    rewrite Forall_forall in Hpost. apply list_elem_of_In in Hin.
    exact (Hpost _ Hin Hname).
Qed.

(** ** The encoder's part *)

(** X6: only the whole seconds of the timestamp reach the encoder: two
    times with the same [Unix()] make [PostWithTime] do the same. *)
Theorem PostWithTime_whole_seconds (f : Fluent) (tag : string) (tm1 tm2 : Time)
    (m : Message V) :
  Unix tm1 = Unix tm2 ->
  PostWithTime MarshalMsg f tag tm1 m = PostWithTime MarshalMsg f tag tm2 m.
Proof.
  intros H. unfold PostWithTime, EncodeAndPostData, EncodeData. rewrite H.
  reflexivity.
Qed.

(** X7: when the encoder fails on the envelope of a posted string-keyed map,
    the call returns the encoder's error wrapped by [fmt.Errorf], in the
    synchronous and in the asynchronous mode alike, and the step changes
    nothing but the caller's position: nothing is written and nothing is
    sent to the spooler. *)
Theorem encode_failure_is_returned (w : World V) (tag : string) (tm : Time)
    (entries : list (string * V)) (rest : list (call V)) (cause : error)
    (werr : option error) :
  crashed w = false ->
  at_caller w = between_calls (call_PostWithTime tag tm (MapValue reflect.String entries) :: rest) ->
  MarshalMsg {| env_Tag := tag_with_prefix (config (fluent w)) tag;
                env_Time := Unix tm;
                env_Record := map_record entries ∅ |} = inr cause ->
  step MarshalMsg w (run_caller werr) =
    Some (with_caller w (between_calls rest),
          [ev_return (Return (Some (fmt_Errorf
             "fluent#EncodeAndPostData: can't convert '%s' to msgpack:%s" cause)))]).
Proof.
  intros Hlive Hpc Henc. unfold step. rewrite Hlive, Hpc.
  rewrite PostWithTime_string_map. unfold EncodeAndPostData, EncodeData.
  rewrite Henc. reflexivity.
Qed.

(** ** The transport *)

Lemma PostWithTime_panics_in_reflect (f : Fluent) tag tm (m : Message V) p :
  PostWithTime MarshalMsg f tag tm m = Done (Panics p) ->
  p <> nil_pointer_dereference /\ p <> reconnect_panic.
Proof.
  destruct m as [|fields|key entries|k].
  - intros [= <-]. split; discriminate.
  - rewrite PostWithTime_struct.
    destruct (struct_record fields ∅) as [kv|p1] eqn:E.
    + intros H. exfalso. exact (EncodeAndPostData_never_panics _ _ _ _ _ H).
    + intros [= <-]. apply struct_record_panics in E as [-> _]. split; discriminate.
  - unfold PostWithTime. simpl.
    destruct (decide (key <> reflect.String)); [discriminate|].
    intros H. exfalso. exact (EncodeAndPostData_never_panics _ _ _ _ _ H).
  - unfold PostWithTime. simpl.
    destruct (decide (k = reflect.Struct)).
    { simpl. intros H. exfalso. exact (EncodeAndPostData_never_panics _ _ _ _ _ H). }
    destruct (decide (k <> reflect.Map)); [discriminate|].
    destruct (decide (reflect.Invalid <> reflect.String)) as [_|Hn];
      [discriminate|].
    exfalso. apply Hn. discriminate.
Qed.

Lemma begin_call_events (w : World V) a rest w1 evs :
  (forall p, a = Done (Panics p) -> p <> nil_pointer_dereference /\ p <> reconnect_panic) ->
  begin_call w a rest = (w1, evs) ->
  fluent w1 = fluent w /\ at_reconnect w1 = at_reconnect w /\
  Forall no_transport_failure evs /\
  Forall (fun ev => is_Write ev = false) evs.
Proof.
  intros Hp. destruct a as [[err|p]|data|b]; simpl; intros [= <- <-]; simpl;
    repeat split; repeat constructor; try exact I; apply (Hp p); reflexivity.
Qed.

Lemma send_step_connected (w : World V) pc data werr c :
  conn (fluent w) = Some c ->
  send_step w pc data werr =
    match pc with
    | send_conn_check => (w, [], None)
    | send_conn_Write => (w, [ev_Write c (buf (fluent w)) werr], Some (Return werr))
    end.
Proof.
  intros H. destruct pc; simpl.
  - unfold send_reconnects. rewrite H. reflexivity.
  - unfold send_Write. rewrite H. reflexivity.
Qed.

(** A step taken with a live connection, no reconnect goroutine, and the
    spooler and the sender in step keeps all three and is no transport
    failure. *)
Lemma step_keeps_connection (c : Conn) (w : World V) ch w1 evs :
  conn (fluent w) = Some c -> at_reconnect w = [] ->
  in_step (at_spooler w) (at_sender w) ->
  step MarshalMsg w ch = Some (w1, evs) ->
  (conn (fluent w1) = Some c /\ at_reconnect w1 = [] /\
   in_step (at_spooler w1) (at_sender w1)) /\
  Forall no_transport_failure evs.
Proof.
  intros Hc Hr Hs E.
  destruct (step_keeps_in_step MarshalMsg w ch w1 evs Hs E) as [Hs1 _].
  cut (conn (fluent w1) = Some c /\ at_reconnect w1 = [] /\
       Forall no_transport_failure evs); [tauto|].
  revert E. unfold step. destruct (crashed w); [discriminate|].
  destruct ch as [werr| | | | | | |werr|werr|k dial].
  - destruct (at_caller w) as [[|[now tag m|tag tm m|] rest]|b rest|pc data rest].
    + discriminate.
    + intros [= H]. eapply begin_call_events in H as (-> & -> & ? & _); auto.
      intros p Hp. eapply PostWithTime_panics_in_reflect. exact Hp.
    + intros [= H]. eapply begin_call_events in H as (-> & -> & ? & _); auto.
      intros p Hp. eapply PostWithTime_panics_in_reflect. exact Hp.
    + intros [= <- <-]. simpl. repeat split; auto. repeat constructor.
    + discriminate.
    + rewrite (send_step_connected w pc data werr c Hc).
      destruct pc; intros [= <- <-]; simpl; repeat split; auto; repeat constructor.
  - destruct (at_caller w) as [|b rest|]; try discriminate.
    destruct (at_spooler w); try discriminate.
    intros [= <- <-]. simpl. repeat split; auto; [|repeat constructor].
    unfold spooler_postCh. destruct (len _ >? _); exact Hc.
  - destruct (at_sender w); try discriminate.
    destruct (at_spooler w); try discriminate.
    rewrite spooler_sendChCh_eq. intros [= <- <-]. simpl. repeat split; auto.
  - destruct (at_spooler w); try discriminate.
    destruct (at_sender w); try discriminate.
    intros [= <- <-]. simpl. repeat split; auto.
  - destruct (at_sender w); try discriminate.
    destruct (ctx_done w); [|discriminate].
    intros [= <- <-]. simpl. repeat split; auto.
  - destruct (at_spooler w); try discriminate.
    destruct (ctx_done w); [|discriminate].
    intros [= <- <-]. simpl. repeat split; auto.
  - destruct (at_sender w); try discriminate.
    destruct (at_spooler w); try discriminate. contradiction.
  - destruct (at_sender w) as [| |pc data| |]; try discriminate.
    rewrite (send_step_connected w pc data werr c Hc).
    destruct pc; intros [= <- <-]; simpl; repeat split; auto; repeat constructor.
  - destruct (at_spooler w) as [| | |pc data| |]; try discriminate; contradiction.
  - rewrite Hr. simpl. discriminate.
Qed.

(** X8: a client that [New] has returned never reconnects: in every run the
    connection handle stays the one [New] dialed, whatever the writes
    return, no reconnect goroutine is started, no dial or sleep or close
    happens, and the only panics are those of package reflect in a facade
    call. *)
Theorem started_client_never_reconnects (cfg : Config) (c : Conn) (b : bytes)
    (prog : list (call V)) (sched : list turn) :
  let f := {| config := cfg; conn := Some c; buf := b |} in
  let w := (exec MarshalMsg (started f prog) sched).1 in
  let tr := (exec MarshalMsg (started f prog) sched).2 in
  conn (fluent w) = Some c /\
  at_reconnect w = [] /\
  Forall no_transport_failure tr.
Proof.
  intros f w tr.
  pose (I := fun w : World V =>
               conn (fluent w) = Some c /\ at_reconnect w = [] /\
               in_step (at_spooler w) (at_sender w)).
  assert (Hstep : forall w ch w1 evs,
             I w -> step MarshalMsg w ch = Some (w1, evs) ->
             I w1 /\ Forall no_transport_failure evs).
  { intros w0 ch w1 evs (H1 & H2 & H3). apply step_keeps_connection; assumption. }
  destruct (exec_invariant MarshalMsg I no_transport_failure Hstep sched
              (started f prog)) as [(H1 & H2 & _) H3].
  { repeat split. }
  auto.
Qed.

(** ** The drain (lines 264-268 and 285-292) *)




Lemma step_stays_blocked (b : bytes) (rest : list (call V)) (w : World V) ch w1 evs :
  at_spooler w = spooler_senderResult_recv ->
  in_step (at_spooler w) (at_sender w) ->
  at_caller w = caller_postCh_send b rest ->
  step MarshalMsg w ch = Some (w1, evs) ->
  (at_spooler w1 = spooler_senderResult_recv /\
   in_step (at_spooler w1) (at_sender w1) /\
   at_caller w1 = caller_postCh_send b rest) /\
  Forall (fun ev => forall r, ev <> ev_return r) evs.
Proof.
  intros Hsp Hs Hpc E.
  destruct (step_keeps_in_step MarshalMsg w ch w1 evs Hs E) as [Hs1 _].
  cut (at_spooler w1 = spooler_senderResult_recv /\
       at_caller w1 = caller_postCh_send b rest /\
       Forall (fun ev => forall r, ev <> ev_return r) evs); [tauto|].
  rewrite Hsp in Hs. revert E. unfold step. destruct (crashed w); [discriminate|].
  rewrite Hpc, Hsp.
  destruct ch as [werr| | | | | | |werr|werr|k dial]; try discriminate.
  - destruct (at_sender w); discriminate.
  - destruct (at_sender w); try discriminate.
    destruct (ctx_done w); [|discriminate]. contradiction.
  - destruct (at_sender w); try discriminate. contradiction.
  - destruct (at_sender w) as [| |pc data| |] eqn:Esd; try discriminate.
    destruct (send_step_cases w pc data werr) as [[pcs E]|[(c & Hconn & E)|[Hconn E]]];
      rewrite E; intros [= <- <-]; simpl; repeat split; auto;
      repeat constructor; discriminate.
  - destruct (at_reconnect w !! k) as [pc|]; [|discriminate].
    destruct (reconnect_step (fluent w) pc dial) as [[[f1 evs1] pc1]|] eqn:E;
      [|discriminate].
    assert (Forall (fun ev => forall r, ev <> ev_return r) evs1).
    { destruct pc as [i|i d|]; simpl in E; [| |discriminate].
      - destruct (connect (fluent w) dial) as [f' [err|]].
        + destruct (i =? MaxRetry (config f')); injection E as <- <- <-;
            repeat constructor; discriminate.
        + injection E as <- <- <-. repeat constructor; discriminate.
      - injection E as <- <- <-. repeat constructor; discriminate. }
    destruct pc1; intros [= <- <-]; simpl; auto.
Qed.

(** X9: once the spooler has taken the cancellation (it waits at line 270
    for the sender's result), an asynchronous post that is blocked sending
    on [postCh] stays blocked in every run: the call never returns. *)
Theorem post_after_shutdown_never_returns (w : World V) (b : bytes)
    (rest : list (call V)) (sched : list turn) :
  at_spooler w = spooler_senderResult_recv ->
  in_step (at_spooler w) (at_sender w) ->
  at_caller w = caller_postCh_send b rest ->
  at_caller (exec MarshalMsg w sched).1 = caller_postCh_send b rest /\
  at_spooler (exec MarshalMsg w sched).1 = spooler_senderResult_recv /\
  Forall (fun ev => forall r, ev <> ev_return r) (exec MarshalMsg w sched).2.
Proof.
  intros Hsp Hs Hpc.
  pose (I := fun w : World V =>
               at_spooler w = spooler_senderResult_recv /\
               in_step (at_spooler w) (at_sender w) /\
               at_caller w = caller_postCh_send b rest).
  assert (Hstep : forall w ch w1 evs,
             I w -> step MarshalMsg w ch = Some (w1, evs) ->
             I w1 /\ Forall (fun ev => forall r, ev <> ev_return r) evs).
  { intros w0 ch w1 evs (H1 & H2 & H3). apply step_stays_blocked; assumption. }
  destruct (exec_invariant MarshalMsg I _ Hstep sched w) as [(H1 & _ & H3) H4].
  { repeat split; assumption. }
  auto.
Qed.

Lemma send_step_writes (w : World V) pc data werr w1 evs r c p err :
  send_step w pc data werr = (w1, evs, r) ->
  In (ev_Write c p err) evs ->
  conn (fluent w) = Some c /\ p = buf (fluent w) /\ w1 = w /\
  evs = [ev_Write c p err] /\ r = Some (Return err).
Proof.
  destruct (send_step_cases w pc data werr) as [[pcs E]|[(c0 & Hconn & E)|[Hconn E]]];
    rewrite E; intros [= <- <- <-]; simpl.
  - intros [].
  - intros [[= <- <- <-]|[]]. auto.
  - intros [[=]|[]].
Qed.

(** X10: whoever writes, and whatever bytes [send] was called with, a write
    goes to the connection the struct holds at that moment and carries the
    buffer [f.buf] of that moment; it is the only write of its step, and it
    leaves the struct as it is even when it fails: the connection is kept
    and nothing is retried. *)
Theorem write_carries_the_buffer (w w1 : World V) (ch : turn)
    (evs : list event) (c : Conn) (p : bytes) (err : option error) :
  step MarshalMsg w ch = Some (w1, evs) ->
  In (ev_Write c p err) evs ->
  conn (fluent w) = Some c /\ p = buf (fluent w) /\ fluent w1 = fluent w /\
  List.filter is_Write evs = [ev_Write c p err].
Proof.
  unfold step. destruct (crashed w); [discriminate|].
  destruct ch as [werr| | | | | | |werr|werr|k dial].
  - destruct (at_caller w) as [[|[now tag m|tag tm m|] rest]|b rest|pc data rest].
    + discriminate.
    + destruct (begin_call w _ rest) as [w2 evs2] eqn:E. intros [= <- <-] Hin.
      exfalso. destruct (Post _ _ _ _ _) as [[e0|p0]|d0|b0]; simpl in E;
        injection E as <- <-; simpl in Hin; intuition discriminate.
    + destruct (begin_call w _ rest) as [w2 evs2] eqn:E. intros [= <- <-] Hin.
      exfalso. destruct (PostWithTime _ _ _ _ _) as [[e0|p0]|d0|b0]; simpl in E;
        injection E as <- <-; simpl in Hin; intuition discriminate.
    + intros [= <- <-] [[=]|[]].
    + discriminate.
    + destruct (send_step w pc data werr) as [[w2 evs2] r] eqn:E.
      destruct r as [[e0|p0]|]; intros [= <- <-] Hin.
      * apply in_app_or in Hin as [Hin|[[=]|[]]].
        destruct (send_step_writes _ _ _ _ _ _ _ _ _ _ E Hin) as (H1 & H2 & -> & -> & _).
        auto.
      * destruct (send_step_writes _ _ _ _ _ _ _ _ _ _ E Hin) as (_ & _ & _ & _ & [=]).
      * destruct (send_step_writes _ _ _ _ _ _ _ _ _ _ E Hin) as (_ & _ & _ & _ & [=]).
  - destruct (at_caller w) as [|b rest|]; try discriminate.
    destruct (at_spooler w); try discriminate. intros [= <- <-] [[=]|[]].
  - destruct (at_sender w); try discriminate.
    destruct (at_spooler w); try discriminate.
    rewrite spooler_sendChCh_eq. intros [= <- <-] [].
  - destruct (at_spooler w); try discriminate.
    destruct (at_sender w); try discriminate. intros [= <- <-] [].
  - destruct (at_sender w); try discriminate.
    destruct (ctx_done w); [|discriminate]. intros [= <- <-] [].
  - destruct (at_spooler w); try discriminate.
    destruct (ctx_done w); [|discriminate]. intros [= <- <-] [].
  - destruct (at_sender w); try discriminate.
    destruct (at_spooler w); try discriminate. intros [= <- <-] [].
  - destruct (at_sender w) as [| |pc data| |]; try discriminate.
    destruct (send_step w pc data werr) as [[w2 evs2] r] eqn:E.
    destruct r as [[e0|p0]|]; intros [= <- <-] Hin;
      destruct (send_step_writes _ _ _ _ _ _ _ _ _ _ E Hin) as (H1 & H2 & -> & -> & Hr);
      try discriminate Hr.
    auto.
  - destruct (at_spooler w) as [| | |pc data| |]; try discriminate.
    + destruct (send_step w pc data werr) as [[w2 evs2] r] eqn:E.
      destruct r as [[e0|p0]|]; intros [= <- <-] Hin;
        destruct (send_step_writes _ _ _ _ _ _ _ _ _ _ E Hin) as (H1 & H2 & -> & -> & Hr);
        try discriminate Hr.
      auto.
    + unfold close, flushBuffer. simpl.
      destruct (conn (fluent w)); intros [= <- <-]; simpl; intuition discriminate.
  - destruct (at_reconnect w !! k) as [pc|]; [|discriminate].
    destruct (reconnect_step (fluent w) pc dial) as [[[f1 evs1] pc1]|] eqn:E;
      [|discriminate].
    apply reconnect_step_keeps in E as (_ & _ & Hwr & _).
    destruct pc1; intros [= <- <-] Hin; exfalso;
      rewrite Forall_forall in Hwr; apply list_elem_of_In in Hin;
      exact (Hwr _ Hin c p err eq_refl).
Qed.

(** X11: the spooler is the only writer of the buffer: a step that changes
    [f.buf] is one of the spooler's (its receive from [postCh], its
    hand-over to the sender, or its final lines 271-274); the facade calls,
    the sender, [send] and the reconnect goroutines never do. *)
Theorem only_the_spooler_changes_the_buffer (w w1 : World V) (ch : turn)
    (evs : list event) :
  step MarshalMsg w ch = Some (w1, evs) ->
  buf (fluent w1) <> buf (fluent w) ->
  spooler_turn ch.
Proof.
  unfold step, spooler_turn. destruct (crashed w); [discriminate|].
  destruct ch as [werr| | | | | | |werr|werr|k dial]; eauto.
  - destruct (at_caller w) as [[|[now tag m|tag tm m|] rest]|b rest|pc data rest].
    + discriminate.
    + intros [= H]. apply (f_equal fst) in H. simpl in H. subst w1.
      rewrite begin_call_fluent. congruence.
    + intros [= H]. apply (f_equal fst) in H. simpl in H. subst w1.
      rewrite begin_call_fluent. congruence.
    + intros [= <- <-]. simpl. congruence.
    + discriminate.
    + pose proof (send_step_fluent w pc data werr) as Hf.
      destruct (send_step w pc data werr) as [[w2 evs2] [[err|p]|]]; simpl in Hf;
        intros [= <- <-]; simpl; rewrite Hf; congruence.
  - destruct (at_spooler w); try discriminate.
    destruct (at_sender w); try discriminate. intros [= <- <-]. simpl. congruence.
  - destruct (at_sender w); try discriminate.
    destruct (ctx_done w); [|discriminate]. intros [= <- <-]. simpl. congruence.
  - destruct (at_spooler w); try discriminate.
    destruct (ctx_done w); [|discriminate]. intros [= <- <-]. simpl. congruence.
  - destruct (at_sender w); try discriminate.
    destruct (at_spooler w); try discriminate. intros [= <- <-]. simpl. congruence.
  - destruct (at_sender w) as [| |pc data| |]; try discriminate.
    pose proof (send_step_fluent w pc data werr) as Hf.
    destruct (send_step w pc data werr) as [[w2 evs2] [[err|p]|]]; simpl in Hf;
      intros [= <- <-]; simpl; rewrite Hf; congruence.
  - destruct (at_reconnect w !! k) as [pc|]; [|discriminate].
    destruct (reconnect_step (fluent w) pc dial) as [[[f1 evs1] pc1]|] eqn:E;
      [|discriminate].
    apply reconnect_step_keeps in E as (_ & Hbuf & _ & _).
    destruct pc1; intros [= <- <-]; simpl; congruence.
Qed.

(** X12: the configuration is never changed: in every run from every state
    the struct holds the [Config] it started with. *)
Theorem config_is_never_changed (w : World V) (sched : list turn) :
  config (fluent (exec MarshalMsg w sched).1) = config (fluent w).
Proof.
  pose (I := fun w0 : World V => config (fluent w0) = config (fluent w)).
  assert (Hstep : forall w0 ch w1 evs,
             I w0 -> step MarshalMsg w0 ch = Some (w1, evs) ->
             I w1 /\ Forall (fun _ => True) evs).
  { intros w0 ch w1 evs H0 E. split; [|apply Forall_forall; auto].
    apply step_buffer in E as [Hc _]. unfold I. congruence. }
  apply (exec_invariant MarshalMsg I _ Hstep sched w). reflexivity.
Qed.

(** ** The buffer under several posts *)

(** X13: bytes received from [postCh] one slice after the other are kept in
    the order received, after what the buffer held, as long as the total
    stays within the limit; the connection and the configuration are not
    touched. *)
Theorem posts_are_appended_in_order (datas : list bytes) (f : Fluent) :
  len (buf f) + len (concat datas) <= BufferLimit (config f) ->
  foldl spooler_postCh f datas = set_buf f (buf f ++ concat datas).
Proof.
  revert f. induction datas as [|data rest IH]; intros f Hlen; simpl.
  - rewrite app_nil_r. destruct f; reflexivity.
  - unfold len in Hlen. simpl in Hlen. rewrite length_app in Hlen.
    assert (E : spooler_postCh f data = set_buf f (buf f ++ data)).
    { unfold spooler_postCh. simpl.
      destruct (len (buf f ++ data) >? BufferLimit (config f)) eqn:Egt; [|reflexivity].
      rewrite Z.gtb_ltb in Egt. apply Z.ltb_lt in Egt.
      unfold len in Egt. rewrite length_app in Egt. lia. }
    rewrite E, IH.
    + simpl. rewrite <- app_assoc. reflexivity.
    + unfold len. simpl. rewrite length_app. lia.
Qed.

(** ** The retry policy *)






Lemma connect_unsupported (f : Fluent) dial :
  FluentNetwork (config f) <> "tcp" -> FluentNetwork (config f) <> "unix" ->
  connect f dial = (f, Some (net_UnknownNetworkError (FluentNetwork (config f)))).
Proof.
  intros H1 H2. unfold connect.
  destruct (String.eqb_spec (FluentNetwork (config f)) "tcp"); [contradiction|].
  destruct (String.eqb_spec (FluentNetwork (config f)) "unix"); [contradiction|].
  reflexivity.
Qed.

Lemma reconnect_loop_unsupported n : forall (f : Fluent) (i : Z) (net : list Dialer),
  FluentNetwork (config f) <> "tcp" -> FluentNetwork (config f) <> "unix" ->
  0 <= i -> MaxRetry (config f) < 2 ^ 63 ->
  MaxRetry (config f) - i = Z.of_nat n ->
  (n < length net)%nat ->
  exists tr, reconnect_loop f i net = (f, tr, panicked) /\ attempts tr = S n.
Proof.
  induction n as [|n IH]; intros f i net H1 H2 Hi Hmax Hn Hlen;
    (destruct net as [|d net]; [simpl in Hlen; lia|]); simpl;
    rewrite (connect_unsupported f d H1 H2).
  - replace (i =? MaxRetry (config f)) with true by (symmetry; apply Z.eqb_eq; lia).
    eexists. split; reflexivity.
  - replace (i =? MaxRetry (config f)) with false by (symmetry; apply Z.eqb_neq; lia).
    rewrite int_wrap_small by lia.
    destruct (IH f (i + 1) net) as (tr & E & Hatt); try lia; try assumption.
    { simpl in Hlen. lia. }
    rewrite E. eexists. split; [reflexivity|].
    unfold attempts in *. simpl. rewrite Hatt. reflexivity.
Qed.

(** With such a transport the loop never ends connected, wherever it
    starts and whatever [MaxRetry] is. *)
Lemma reconnect_loop_never_connects (f : Fluent) (net : list Dialer) : forall i,
  FluentNetwork (config f) <> "tcp" -> FluentNetwork (config f) <> "unix" ->
  (reconnect_loop f i net).2 <> connected /\ (reconnect_loop f i net).1.1 = f.
Proof.
  induction net as [|d net IH]; intros i H1 H2; simpl.
  - split; [discriminate|reflexivity].
  - rewrite (connect_unsupported f d H1 H2).
    destruct (i =? MaxRetry (config f)); [split; [discriminate|reflexivity]|].
    specialize (IH (int_wrap (i + 1)) H1 H2).
    destruct (reconnect_loop f (int_wrap (i + 1)) net) as [[f2 tr] r]. exact IH.
Qed.

(** X2: a configured transport other than "tcp" and "unix" never connects:
    [connect] fails with [UnknownNetworkError] without dialing and leaves
    the struct as it is, so [New] returns that error with an absent
    connection, and the reconnect loop, from whatever attempt index and
    for whatever [MaxRetry], never ends connected and leaves the struct as
    it is whatever the environment would answer.  If moreover [MaxRetry]
    is not negative, the loop panics after [MaxRetry + 1] attempts ([1 +
    DefaultMaxRetry] when [MaxRetry] is zero). *)
Theorem unsupported_network_never_connects (config0 : Config)
    (dial : Dialer) (net : list Dialer) :
  FluentNetwork config0 <> "" ->
  FluentNetwork config0 <> "tcp" ->
  FluentNetwork config0 <> "unix" ->
  let f := {| config := New_defaults config0; conn := None; buf := nil_slice |} in
  New config0 dial = (f, Some (net_UnknownNetworkError (FluentNetwork config0))) /\
  (forall i,
      (reconnect_loop f i net).2 <> connected /\ (reconnect_loop f i net).1.1 = f) /\
  (0 <= MaxRetry config0 < 2 ^ 63 ->
   (Z.to_nat (MaxRetry (New_defaults config0)) < length net)%nat ->
   exists tr,
     reconnect_loop f 0 net = (f, tr, panicked) /\
     attempts tr = S (Z.to_nat (MaxRetry (New_defaults config0)))).
Proof.
  intros Hne Htcp Hunix f.
  assert (Hnet : FluentNetwork (config f) = FluentNetwork config0).
  { simpl. destruct (String.eqb_spec (FluentNetwork config0) ""); [contradiction|].
    reflexivity. }
  split; [|split].
  - unfold New. fold f. rewrite connect_unsupported by (rewrite Hnet; assumption).
    rewrite Hnet. reflexivity.
  - intros i. apply reconnect_loop_never_connects; rewrite Hnet; assumption.
  - intros Hmax Hlen.
    assert (Hretry : 0 <= MaxRetry (config f) < 2 ^ 63).
    { simpl. destruct (MaxRetry config0 =? 0); [vm_compute; split; congruence|exact Hmax]. }
    apply reconnect_loop_unsupported; try rewrite Hnet; try assumption; try lia.
    simpl in *. lia.
Qed.

(** ** Asynchronous calls *)

Lemma EncodeAndPostData_async (f : Fluent) tag tm (kv : gmap string V) :
  SyncPost (config f) = false ->
  match EncodeAndPostData MarshalMsg f tag tm kv with
  | Done (Return (Some err)) => facade_error err
  | AsyncPost _ => True
  | _ => False
  end.
Proof.
  intros Hs. unfold EncodeAndPostData. destruct (EncodeData _ _ _ _) as [data|cause].
  - rewrite Hs. exact I.
  - right. eauto.
Qed.

Lemma PostWithTime_async (f : Fluent) tag tm (m : Message V) :
  SyncPost (config f) = false ->
  match PostWithTime MarshalMsg f tag tm m with
  | Done (Return (Some err)) => facade_error err
  | Done (Return None) | SyncSend _ => False
  | _ => True
  end.
Proof.
  intros Hs. unfold PostWithTime. destruct (Type_ (ValueOf m)) as [msgtype|p]; [|exact I].
  destruct (decide (Kind msgtype = reflect.Struct)).
  { destruct (struct_record _ _) as [kv|p]; [|exact I].
    pose proof (EncodeAndPostData_async f
                  (if Z.of_nat (String.length (TagPrefix (config f))) >? 0
                   then TagPrefix (config f) +:+ "." +:+ tag else tag) tm kv Hs) as H.
    destruct (EncodeAndPostData _ _ _ _ _) as [[[err|]|p]|d|b]; tauto. }
  destruct (decide (Kind msgtype <> reflect.Map)); [left; left; reflexivity|].
  destruct (decide (Key_Kind msgtype <> reflect.String)); [left; right; reflexivity|].
  pose proof (EncodeAndPostData_async f
                (if Z.of_nat (String.length (TagPrefix (config f))) >? 0
                 then TagPrefix (config f) +:+ "." +:+ tag else tag) tm
                (map_record (map_entries msgtype) ∅) Hs) as H.
  destruct (EncodeAndPostData _ _ _ _ _) as [[[err|]|p]|d|b]; tauto.
Qed.

Ltac returns_ok :=
  repeat (apply Forall_cons_2;
          [intros ? Hev; try discriminate Hev; injection Hev as <-; assumption|]);
  apply Forall_nil_2.

Lemma step_async (w : World V) ch w1 evs :
  SyncPost (config (fluent w)) = false ->
  (forall pc data rest, at_caller w <> caller_send pc data rest) ->
  step MarshalMsg w ch = Some (w1, evs) ->
  (SyncPost (config (fluent w1)) = false /\
   forall pc data rest, at_caller w1 <> caller_send pc data rest) /\
  Forall returns_no_transport_error evs.
Proof.
  intros Hs Hpc E. pose proof (step_buffer MarshalMsg w ch w1 evs E) as [Hcfg _].
  rewrite Hcfg.
  cut ((forall pc data rest, at_caller w1 <> caller_send pc data rest) /\
       Forall returns_no_transport_error evs); [tauto|].
  revert E. unfold step, returns_no_transport_error. destruct (crashed w); [discriminate|].
  destruct ch as [werr| | | | | | |werr|werr|k dial].
  - destruct (at_caller w) as [[|[now tag m|tag tm m|] rest]|b rest|pc data rest] eqn:Ec.
    + discriminate.
    + pose proof (PostWithTime_async (fluent w) tag now m Hs) as H.
      unfold Post. destruct (PostWithTime _ _ _ _ _) as [[[err|]|p]|d|b];
        try contradiction; simpl; intros [= <- <-]; simpl;
        (split; [try rewrite Ec; discriminate|returns_ok]).
    + pose proof (PostWithTime_async (fluent w) tag tm m Hs) as H.
      destruct (PostWithTime _ _ _ _ _) as [[[err|]|p]|d|b];
        try contradiction; simpl; intros [= <- <-]; simpl;
        (split; [try rewrite Ec; discriminate|returns_ok]).
    + intros [= <- <-]. simpl. split; [discriminate|returns_ok].
    + discriminate.
    + exfalso. eapply Hpc. reflexivity.
  - destruct (at_caller w) as [|b rest|]; try discriminate.
    destruct (at_spooler w); try discriminate.
    intros [= <- <-]. simpl. split; [discriminate|returns_ok].
  - destruct (at_sender w); try discriminate.
    destruct (at_spooler w); try discriminate.
    rewrite spooler_sendChCh_eq. intros [= <- <-]. simpl. split; [exact Hpc|constructor].
  - destruct (at_spooler w); try discriminate.
    destruct (at_sender w); try discriminate.
    intros [= <- <-]. simpl. split; [exact Hpc|constructor].
  - destruct (at_sender w); try discriminate.
    destruct (ctx_done w); [|discriminate].
    intros [= <- <-]. simpl. split; [exact Hpc|constructor].
  - destruct (at_spooler w); try discriminate.
    destruct (ctx_done w); [|discriminate].
    intros [= <- <-]. simpl. split; [exact Hpc|constructor].
  - destruct (at_sender w); try discriminate.
    destruct (at_spooler w); try discriminate.
    intros [= <- <-]. simpl. split; [exact Hpc|constructor].
  - destruct (at_sender w) as [| |pc data| |]; try discriminate.
    destruct (send_step_cases w pc data werr) as [[pcs E]|[(c & Hconn & E)|[Hconn E]]];
      rewrite E; intros [= <- <-]; simpl; (split; [exact Hpc|returns_ok]).
  - destruct (at_spooler w) as [| | |pc data| |]; try discriminate.
    + destruct (send_step_cases w pc data werr) as [[pcs E]|[(c & Hconn & E)|[Hconn E]]];
        rewrite E; intros [= <- <-]; simpl; (split; [exact Hpc|returns_ok]).
    + unfold close, flushBuffer. simpl.
      destruct (conn (fluent w)); intros [= <- <-]; simpl; (split; [exact Hpc|returns_ok]).
  - destruct (at_reconnect w !! k) as [pc|]; [|discriminate].
    destruct (reconnect_step (fluent w) pc dial) as [[[f1 evs1] pc1]|] eqn:E;
      [|discriminate].
    assert (Forall (fun ev => forall err, ev = ev_return (Return (Some err)) ->
                                          facade_error err) evs1).
    { destruct pc as [i|i d|]; simpl in E; [| |discriminate].
      - destruct (connect (fluent w) dial) as [f' [err|]].
        + destruct (i =? MaxRetry (config f')); injection E as <- <- <-; returns_ok.
        + injection E as <- <- <-. returns_ok.
      - injection E as <- <- <-. returns_ok. }
    destruct pc1; intros [= <- <-]; simpl; auto.
Qed.

(** X16: in the asynchronous mode a facade call never reports the transport:
    whatever the connection does, in every run each call returns nil or one
    of the facade's own errors (record shape, encoding), never the error of
    a write or of a dial. *)
Theorem async_calls_never_report_the_transport (cfg : Config)
    (conn0 : option Conn) (b : bytes) (prog : list (call V)) (sched : list turn) :
  SyncPost cfg = false ->
  let f := {| config := cfg; conn := conn0; buf := b |} in
  Forall returns_no_transport_error (exec MarshalMsg (started f prog) sched).2.
Proof.
  intros Hs f.
  pose (I := fun w : World V =>
               SyncPost (config (fluent w)) = false /\
               forall pc data rest, at_caller w <> caller_send pc data rest).
  assert (Hstep : forall w ch w1 evs,
             I w -> step MarshalMsg w ch = Some (w1, evs) ->
             I w1 /\ Forall returns_no_transport_error evs).
  { intros w0 ch w1 evs [H1 H2]. apply step_async; assumption. }
  apply (exec_invariant MarshalMsg I _ Hstep sched (started f prog)).
  split; [exact Hs|discriminate].
Qed.

End Further.

(** * Concrete runs *)

Example copy_into_nil_slice : copy nil_slice [Byte.x01; Byte.x02] = ([], 0).
Proof. reflexivity. Qed.

Example New_zero_Config :
  New Sample.zero_Config (Sample.accept 0%nat)
  = (Sample.client Sample.default_Config, None).
Proof. reflexivity. Qed.

(** The scenario of C1 under one schedule: the four calls return nil, the
    only write carries no byte, and the run ends with the spooler waiting at
    line 270 and the sender at line 283, neither able to move. *)
Example three_posts_then_Close_run :
  let w0 := started (Sample.client Sample.default_Config)
                    Sample.three_posts_then_Close in
  let '(w, tr) := exec Sample.MarshalMsg w0 Sample.posts_then_drain in
  tr = [ev_return (Return None); ev_return (Return None);
        ev_return (Return None); ev_return (Return None);
        ev_Write 0%nat [] None] /\
  at_spooler w = spooler_senderResult_recv /\
  at_sender w = sender_sendCh_send /\
  forall ch, step Sample.MarshalMsg w ch = None.
Proof.
  vm_compute. repeat split. intros [werr| | | | | | |werr|werr|[|k] dial]; reflexivity.
Qed.

(** The encoder's three envelopes in the scenario are not empty. *)
Example three_envelopes :
  EncodeData Sample.MarshalMsg "t" Sample.noon {["a" := 1]} = inl [Byte.x93; Byte.x01] /\
  EncodeData Sample.MarshalMsg "t" Sample.noon {["a" := 2]} = inl [Byte.x93; Byte.x02] /\
  EncodeData Sample.MarshalMsg "t" Sample.noon {["a" := 3]} = inl [Byte.x93; Byte.x03].
Proof. vm_compute. repeat split. Qed.

(** When the reconnect goroutine happens to run between lines 247 and 250
    and its dial is answered, the write of [send] finds the new handle. *)
Example send_after_reconnect_in_time :
  let f := Sample.disconnected Sample.default_Config in
  let w := with_sender (started f ([] : list (call Z)))
             (sender_send send_conn_check [Byte.x01]) in
  (exec Sample.MarshalMsg w
     [run_sender None; run_reconnect 0 (Sample.accept 7%nat); run_sender None]).2 =
  [ev_connect 0 None; ev_Write 7%nat [] None].
Proof. reflexivity. Qed.

(** * Witnesses and counterexamples *)

Lemma sync_post_writes_the_buffer_witness :
  let cfg := Sample.with_SyncPost Sample.default_Config true in
  SyncPost cfg = true /\
  EncodeData Sample.MarshalMsg "t" Sample.noon {["a" := 1]}
    = inl [Byte.x93; Byte.x01] /\
  send (Sample.client cfg) [Byte.x93; Byte.x01] None
    = (false, [ev_Write 0%nat [] None], Return None).
Proof.
  intros cfg.
  assert (H1 : SyncPost cfg = true) by reflexivity.
  assert (H2 : EncodeData Sample.MarshalMsg "t" Sample.noon {["a" := 1]}
               = inl [Byte.x93; Byte.x01]) by (vm_compute; reflexivity).
  split; [exact H1|]. split; [exact H2|].
  exact (proj1 (proj2 (sync_post_writes_the_buffer Sample.MarshalMsg cfg 0%nat []
                         "t" Sample.noon {["a" := 1]} [Byte.x93; Byte.x01]
                         None [] H1 H2))).
Defined.

Lemma buffer_within_limit_witness :
  let f := {| config := Sample.with_BufferLimit Sample.default_Config 4;
              conn := Some 0%nat; buf := [Byte.x01; Byte.x02] |} in
  let w := with_caller (started f ([] : list (call Z)))
             (caller_postCh_send [Byte.x03; Byte.x04; Byte.x05] []) in
  0 <= BufferLimit (config (fluent w)) /\
  len (buf (fluent w)) <= BufferLimit (config (fluent w)) /\
  len (buf (fluent (exec Sample.MarshalMsg w [meet_postCh]).1))
    <= BufferLimit (config (fluent (exec Sample.MarshalMsg w [meet_postCh]).1)).
Proof.
  intros f w.
  assert (H1 : 0 <= BufferLimit (config (fluent w))) by (vm_compute; discriminate).
  assert (H2 : len (buf (fluent w)) <= BufferLimit (config (fluent w)))
    by (vm_compute; discriminate).
  split; [exact H1|]. split; [exact H2|].
  exact (proj1 (buffer_within_limit Sample.MarshalMsg w [meet_postCh] H1 H2)).
Defined.

Lemma PostWithTime_invalid_shape_witness :
  let m : Message Z := OtherValue reflect.String in
  m <> Nil /\ Kind m <> reflect.Struct /\
  (Kind m <> reflect.Map \/ Key_Kind m <> reflect.String) /\
  exists err,
    InvalidRecordShape err /\
    PostWithTime Sample.MarshalMsg (Sample.client Sample.default_Config)
      "tag_name" Sample.noon m = Done (Return (Some err)).
Proof.
  intros m.
  assert (H1 : m <> Nil) by discriminate.
  assert (H2 : Kind m <> reflect.Struct) by discriminate.
  assert (H3 : Kind m <> reflect.Map \/ Key_Kind m <> reflect.String)
    by (left; discriminate).
  split; [exact H1|]. split; [exact H2|]. split; [exact H3|].
  destruct (PostWithTime_invalid_shape Sample.MarshalMsg
              (Sample.client Sample.default_Config) "tag_name" Sample.noon m
              H1 H2 H3) as (err & Hshape & Hpost & _).
  exists err. split; assumption.
Defined.

(** C8 as stated fails on the nil interface, which is neither a struct nor a
    map: the call panics instead of returning an error. *)
Lemma PostWithTime_nil_is_not_an_error :
  Kind (@Nil Z) <> reflect.Struct /\
  Kind (@Nil Z) <> reflect.Map /\
  PostWithTime Sample.MarshalMsg (Sample.client Sample.default_Config)
    "t" Sample.noon Nil
    = Done (Panics (reflect_ValueError "reflect.Value.Type" reflect.Invalid)) /\
  ~ (forall (f : Fluent) (tag : string) (tm : Time) (m : Message Z),
        Kind m <> reflect.Struct ->
        Kind m <> reflect.Map \/ Key_Kind m <> reflect.String ->
        exists err,
          InvalidRecordShape err /\
          PostWithTime Sample.MarshalMsg f tag tm m = Done (Return (Some err))).
Proof.
  split; [discriminate|]. split; [discriminate|]. split; [reflexivity|].
  intros H.
  destruct (H (Sample.client Sample.default_Config) "t" Sample.noon Nil)
    as (err & _ & Hpost); [discriminate|left; discriminate|].
  discriminate Hpost.
Qed.

Lemma reconnect_gives_up_after_MaxRetry_retries_witness :
  let f := Sample.disconnected (Sample.with_MaxRetry Sample.default_Config 2) in
  let net := [Sample.refuse; Sample.refuse; Sample.refuse] in
  0 <= MaxRetry (config f) < 2 ^ 63 - 1 /\
  exists f1 tr,
    reconnect_loop f 0 net = (f1, tr, panicked) /\
    attempts tr = 3%nat /\
    last tr = Some (ev_panic reconnect_panic).
Proof.
  intros f net.
  assert (H1 : 0 <= MaxRetry (config f) < 2 ^ 63 - 1)
    by (split; vm_compute; [discriminate|reflexivity]).
  split; [exact H1|].
  destruct (reconnect_gives_up_after_MaxRetry_retries Sample.MarshalMsg f H1)
    as (_ & Hpanic & _).
  apply (Hpanic net).
  - vm_compute. lia.
  - repeat constructor.
Defined.

(** C4 as stated fails: with [MaxRetry = 2], two consecutive failures do not
    end the loop; a third attempt is made, and when it succeeds the loop
    ends connected. *)
Lemma reconnect_survives_MaxRetry_failures :
  let f := Sample.disconnected (Sample.with_MaxRetry Sample.default_Config 2) in
  let net := [Sample.refuse; Sample.refuse; Sample.accept 7%nat] in
  MaxRetry (config f) = 2 /\
  Forall (fun d => connect_fails (config f) d = true) (take 2 net) /\
  reconnect_loop f 0 net =
    (set_conn f (Some 7%nat),
     [ev_connect 0 (Some (net_OpError "dial")); ev_Sleep 0;
      ev_connect 1 (Some (net_OpError "dial")); ev_Sleep 500000000;
      ev_connect 2 None],
     connected) /\
  ~ (forall (f : Fluent) (net : list Dialer),
        0 <= MaxRetry (config f) ->
        (Z.to_nat (MaxRetry (config f)) <= length net)%nat ->
        Forall (fun d => connect_fails (config f) d = true)
               (take (Z.to_nat (MaxRetry (config f))) net) ->
        (reconnect_loop f 0 net).2 = panicked).
Proof.
  intros f net. split; [reflexivity|]. split; [repeat constructor|].
  split; [reflexivity|].
  intros H. specialize (H f net).
  assert (E : (reconnect_loop f 0 net).2 = connected) by reflexivity.
  rewrite E in H. discriminate H.
  - vm_compute. discriminate.
  - vm_compute. lia.
  - repeat constructor.
Qed.

Lemma reconnect_backoff_witness :
  let f := Sample.disconnected Sample.default_Config in
  let net := [Sample.refuse; Sample.refuse; Sample.refuse; Sample.accept 7%nat] in
  let pre := [ev_connect 0 (Some (net_OpError "dial")); ev_Sleep 0;
              ev_connect 1 (Some (net_OpError "dial")); ev_Sleep 500000000] in
  let post := [ev_Sleep 500000000; ev_connect 3 None] in
  0 <= RetryWait (config f) <= 10000000 /\
  0 <= MaxRetry (config f) <= 34 /\
  (reconnect_loop f 0 net).1.2
    = pre ++ ev_connect 2 (Some (net_OpError "dial")) :: post /\
  (2 = 0 /\ pre = [] \/
   0 < 2 <= MaxRetry (config f) /\
   exists pre',
     pre = pre' ++ [ev_Sleep (RetryWait (config f)
                              * e defaultReconnectWaitIncreRate (2 - 2)
                              * Millisecond)]).
Proof.
  intros f net pre post.
  assert (H1 : 0 <= RetryWait (config f) <= 10000000)
    by (split; vm_compute; discriminate).
  assert (H2 : 0 <= MaxRetry (config f) <= 34)
    by (split; vm_compute; discriminate).
  assert (H3 : (reconnect_loop f 0 net).1.2
               = pre ++ ev_connect 2 (Some (net_OpError "dial")) :: post)
    by reflexivity.
  split; [exact H1|]. split; [exact H2|]. split; [exact H3|].
  exact (proj1 (reconnect_backoff f net pre post 2
                  (Some (net_OpError "dial")) H1 H2 H3)).
Defined.

(** C5 as stated fails: with the default configuration ([RetryWait = 500]),
    attempt 1 follows a sleep of zero, less than the
    [500 * 1.5 ^ 0 = 500] milliseconds of the claim. *)
Lemma reconnect_no_wait_before_attempt_1 :
  let f := Sample.disconnected Sample.default_Config in
  let net := [Sample.refuse; Sample.accept 7%nat] in
  (reconnect_loop f 0 net).1.2 =
    [ev_connect 0 (Some (net_OpError "dial")); ev_Sleep 0; ev_connect 1 None] /\
  ~ (forall (f : Fluent) (net : list Dialer) (pre post : list event)
            (d i : Z) (err : option error),
        (reconnect_loop f 0 net).1.2 = pre ++ ev_Sleep d :: ev_connect i err :: post ->
        0 < i ->
        (inject_Z (RetryWait (config f) * Millisecond)
           * Qpower defaultReconnectWaitIncreRate (i - 1) <= inject_Z d)%Q).
Proof.
  intros f net. split; [reflexivity|].
  intros H.
  specialize (H f net [ev_connect 0 (Some (net_OpError "dial"))] [] 0 1 None
                eq_refl ltac:(lia)).
  vm_compute in H. apply H. reflexivity.
Qed.


(** C6 as stated fails for a negative limit: [New] replaces only a zero
    [BufferLimit] (lines 68-70), so a limit of -1 is kept, and the empty
    buffer of the client [New] returns is longer than it, before any call
    and after the posts, the drain and the shutdown of the scenario. *)
Lemma negative_BufferLimit_is_exceeded :
  let config0 := Sample.with_BufferLimit Sample.zero_Config (-1) in
  let f := {| config := New_defaults config0; conn := Some 0%nat; buf := nil_slice |} in
  let w := (exec Sample.MarshalMsg (started f Sample.three_posts_then_Close)
              Sample.posts_then_drain).1 in
  New config0 (Sample.accept 0%nat) = (f, None) /\
  BufferLimit (config f) = -1 /\
  len (buf (fluent (started f Sample.three_posts_then_Close))) > BufferLimit (config f) /\
  len (buf (fluent w)) > BufferLimit (config (fluent w)) /\
  ~ (forall (cfg : Config) (c : Conn) (prog : list (call Z)) (sched : list turn),
       let w := (exec Sample.MarshalMsg
                   (started {| config := cfg; conn := Some c; buf := nil_slice |} prog)
                   sched).1 in
       len (buf (fluent w)) <= BufferLimit (config (fluent w))).
Proof.
  intros config0 f w.
  split; [reflexivity|]. split; [reflexivity|].
  split; [reflexivity|]. split; [reflexivity|].
  intros H. specialize (H (New_defaults config0) 0%nat [] []).
  vm_compute in H. apply H. reflexivity.
Qed.

(** * Witnesses of the further properties *)

Lemma unsupported_network_never_connects_witness :
  let config0 := Sample.with_Network Sample.zero_Config "udp" in
  let f := {| config := New_defaults config0; conn := None; buf := nil_slice |} in
  let net := replicate 14 Sample.refuse in
  FluentNetwork config0 <> "" /\
  FluentNetwork config0 <> "tcp" /\
  FluentNetwork config0 <> "unix" /\
  0 <= MaxRetry config0 < 2 ^ 63 /\
  (Z.to_nat (MaxRetry (New_defaults config0)) < length net)%nat /\
  New config0 (Sample.accept 1%nat) = (f, Some (net_UnknownNetworkError "udp")) /\
  (reconnect_loop f 0 (replicate 5 (Sample.accept 1%nat))).2 <> connected /\
  exists tr, reconnect_loop f 0 net = (f, tr, panicked) /\ attempts tr = 14%nat.
Proof.
  intros config0 f net.
  assert (H1 : FluentNetwork config0 <> "") by discriminate.
  assert (H2 : FluentNetwork config0 <> "tcp") by discriminate.
  assert (H3 : FluentNetwork config0 <> "unix") by discriminate.
  assert (H4 : 0 <= MaxRetry config0 < 2 ^ 63)
    by (split; vm_compute; [discriminate|reflexivity]).
  assert (H5 : (Z.to_nat (MaxRetry (New_defaults config0)) < length net)%nat)
    by (vm_compute; lia).
  split; [exact H1|]. split; [exact H2|]. split; [exact H3|].
  split; [exact H4|]. split; [exact H5|].
  split; [|split].
  - exact (proj1 (unsupported_network_never_connects config0 (Sample.accept 1%nat)
                    net H1 H2 H3)).
  - exact (proj1 (proj1 (proj2 (unsupported_network_never_connects config0
                    (Sample.accept 1%nat) (replicate 5 (Sample.accept 1%nat))
                    H1 H2 H3)) 0)).
  - exact (proj2 (proj2 (unsupported_network_never_connects config0
                    (Sample.accept 1%nat) net H1 H2 H3)) H4 H5).
Defined.

Lemma struct_fields_are_posted_witness :
  let f := Sample.client Sample.default_Config in
  Forall (fun p : StructField * Z => PkgPath p.1 = "") Sample.person /\
  NoDup (map fst (named_fields Sample.person)) /\
  exists kv : gmap string Z,
    PostWithTime Sample.MarshalMsg f "t" Sample.noon (StructValue Sample.person) =
      EncodeAndPostData Sample.MarshalMsg f (tag_with_prefix (config f) "t")
        Sample.noon kv /\
    forall name v,
      kv !! name = Some v <->
      exists fld, In (fld, v) Sample.person /\ field_name fld = name.
Proof.
  intros f.
  assert (H1 : Forall (fun p : StructField * Z => PkgPath p.1 = "") Sample.person)
    by (repeat constructor).
  assert (H2 : NoDup (map fst (named_fields Sample.person))).
  { apply (bool_decide_unpack _). vm_compute. exact I. }
  split; [exact H1|]. split; [exact H2|].
  exact (proj1 (struct_fields_are_posted Sample.MarshalMsg f "t" Sample.noon
                  Sample.person H1 H2)).
Defined.

Lemma string_map_is_posted_witness :
  let f := Sample.client Sample.default_Config in
  let entries : list (string * Z) := [("a", 1); ("b", 2)] in
  NoDup (map fst entries) /\
  exists kv : gmap string Z,
    PostWithTime Sample.MarshalMsg f "t" Sample.noon (MapValue reflect.String entries) =
      EncodeAndPostData Sample.MarshalMsg f (tag_with_prefix (config f) "t")
        Sample.noon kv /\
    (forall k v, kv !! k = Some v <-> In (k, v) entries) /\
    (entries = [] -> kv = ∅).
Proof.
  intros f entries.
  assert (H1 : NoDup (map fst entries)).
  { apply (bool_decide_unpack _). vm_compute. exact I. }
  split; [exact H1|].
  exact (string_map_is_posted Sample.MarshalMsg f "t" Sample.noon entries H1).
Defined.

Lemma PostWithTime_whole_seconds_witness :
  let f := Sample.client Sample.default_Config in
  let tm1 := {| unix_sec := 1500000000; unix_nsec := 0 |} in
  let tm2 := {| unix_sec := 1500000000; unix_nsec := 999999999 |} in
  Unix tm1 = Unix tm2 /\
  PostWithTime Sample.MarshalMsg f "t" tm1 (Sample.a_is 1)
  = PostWithTime Sample.MarshalMsg f "t" tm2 (Sample.a_is 1).
Proof.
  intros f tm1 tm2.
  assert (H1 : Unix tm1 = Unix tm2) by reflexivity.
  split; [exact H1|].
  exact (PostWithTime_whole_seconds Sample.MarshalMsg f "t" tm1 tm2 (Sample.a_is 1) H1).
Defined.

Lemma encode_failure_is_returned_witness :
  let m : Message Z := MapValue reflect.String [("b", 1)] in
  let w := started (Sample.client Sample.default_Config)
             [call_PostWithTime "t" Sample.noon m] in
  let cause := errors_New "msgp: no field a" in
  crashed w = false /\
  at_caller w = between_calls [call_PostWithTime "t" Sample.noon m] /\
  Sample.MarshalMsg {| env_Tag := tag_with_prefix (config (fluent w)) "t";
                       env_Time := Unix Sample.noon;
                       env_Record := map_record [("b", 1)] ∅ |} = inr cause /\
  step Sample.MarshalMsg w (run_caller None) =
    Some (with_caller w (between_calls []),
          [ev_return (Return (Some (fmt_Errorf
             "fluent#EncodeAndPostData: can't convert '%s' to msgpack:%s" cause)))]).
Proof.
  intros m w cause.
  assert (H1 : crashed w = false) by reflexivity.
  assert (H2 : at_caller w = between_calls [call_PostWithTime "t" Sample.noon m])
    by reflexivity.
  assert (H3 : Sample.MarshalMsg
                 {| env_Tag := tag_with_prefix (config (fluent w)) "t";
                    env_Time := Unix Sample.noon;
                    env_Record := map_record [("b", 1)] ∅ |} = inr cause)
    by (vm_compute; reflexivity).
  repeat (split; [assumption|]).
  exact (encode_failure_is_returned Sample.MarshalMsg w "t" Sample.noon [("b", 1)]
           [] cause None H1 H2 H3).
Defined.

Lemma post_after_shutdown_never_returns_witness :
  let w := with_caller Sample.after_shutdown (caller_postCh_send [] []) in
  let sched := [meet_postCh; run_caller None; sender_Done; meet_senderResult;
                meet_sendCh; run_spooler None] in
  at_spooler w = spooler_senderResult_recv /\
  in_step (at_spooler w) (at_sender w) /\
  at_caller w = caller_postCh_send [] [] /\
  at_caller (exec Sample.MarshalMsg w sched).1 = caller_postCh_send [] [].
Proof.
  intros w sched.
  assert (H1 : at_spooler w = spooler_senderResult_recv) by (vm_compute; reflexivity).
  assert (H2 : in_step (at_spooler w) (at_sender w)) by (vm_compute; exact I).
  assert (H3 : at_caller w = caller_postCh_send [] []) by reflexivity.
  repeat (split; [assumption|]).
  exact (proj1 (post_after_shutdown_never_returns Sample.MarshalMsg w [] [] sched
                  H1 H2 H3)).
Defined.

Lemma write_carries_the_buffer_witness :
  let f := {| config := Sample.default_Config; conn := Some 0%nat;
              buf := [Byte.x09] |} in
  let w := with_sender (started f ([] : list (call Z)))
             (sender_send send_conn_Write [Byte.x01]) in
  let err := Some (net_OpError "write") in
  let evs := [ev_Write 0%nat [Byte.x09] err] in
  step Sample.MarshalMsg w (run_sender err)
    = Some (with_sender w sender_sendCh_send, evs) /\
  In (ev_Write 0%nat [Byte.x09] err) evs /\
  conn (fluent w) = Some 0%nat /\
  [Byte.x09] = buf (fluent w) /\
  fluent (with_sender w sender_sendCh_send) = fluent w.
Proof.
  intros f w err evs.
  assert (H1 : step Sample.MarshalMsg w (run_sender err)
               = Some (with_sender w sender_sendCh_send, evs)) by reflexivity.
  assert (H2 : In (ev_Write 0%nat [Byte.x09] err) evs) by (left; reflexivity).
  split; [exact H1|]. split; [exact H2|].
  destruct (write_carries_the_buffer Sample.MarshalMsg w _ _ _ _ _ _ H1 H2)
    as (H3 & H4 & H5 & _).
  auto.
Defined.

Lemma only_the_spooler_changes_the_buffer_witness :
  let w := with_caller (started (Sample.client Sample.default_Config)
                                ([] : list (call Z)))
             (caller_postCh_send [Byte.x01] []) in
  let w1 := with_caller
              (with_fluent w (set_buf (fluent w) [Byte.x01])) (between_calls []) in
  step Sample.MarshalMsg w meet_postCh = Some (w1, [ev_return (Return None)]) /\
  buf (fluent w1) <> buf (fluent w) /\
  spooler_turn meet_postCh.
Proof.
  intros w w1.
  assert (H1 : step Sample.MarshalMsg w meet_postCh
               = Some (w1, [ev_return (Return None)])) by reflexivity.
  assert (H2 : buf (fluent w1) <> buf (fluent w)) by discriminate.
  split; [exact H1|]. split; [exact H2|].
  exact (only_the_spooler_changes_the_buffer Sample.MarshalMsg w w1 meet_postCh _ H1 H2).
Defined.



Lemma posts_are_appended_in_order_witness :
  let f := {| config := Sample.with_BufferLimit Sample.default_Config 4;
              conn := Some 0%nat; buf := [Byte.x01] |} in
  let datas := [[Byte.x02]; [Byte.x03; Byte.x04]] in
  len (buf f) + len (concat datas) <= BufferLimit (config f) /\
  foldl spooler_postCh f datas = set_buf f (buf f ++ concat datas).
Proof.
  intros f datas.
  assert (H1 : len (buf f) + len (concat datas) <= BufferLimit (config f))
    by (vm_compute; discriminate).
  split; [exact H1|].
  exact (posts_are_appended_in_order datas f H1).
Defined.

Lemma async_calls_never_report_the_transport_witness :
  let cfg := Sample.default_Config in
  SyncPost cfg = false /\
  Forall returns_no_transport_error
    (exec Sample.MarshalMsg
       (started {| config := cfg; conn := Some 0%nat; buf := [] |}
                Sample.three_posts_then_Close)
       Sample.posts_then_drain).2.
Proof.
  intros cfg.
  assert (H1 : SyncPost cfg = false) by reflexivity.
  split; [exact H1|].
  exact (async_calls_never_report_the_transport Sample.MarshalMsg cfg (Some 0%nat) []
           Sample.three_posts_then_Close Sample.posts_then_drain H1).
Defined.

Lemma later_field_wins_witness :
  let f := Sample.client Sample.default_Config in
  let id := {| Name := "ID"; Tag := {["msg" := "id"]}; PkgPath := "" |} in
  let key := {| Name := "Key"; Tag := {["msg" := "id"]}; PkgPath := "" |} in
  Forall (fun p : StructField * Z => PkgPath p.1 = "") ([(id, 1)] ++ (key, 2) :: []) /\
  Forall (fun q : StructField * Z => field_name q.1 <> field_name key) [] /\
  exists kv : gmap string Z,
    PostWithTime Sample.MarshalMsg f "t" Sample.noon (StructValue Sample.clash) =
      EncodeAndPostData Sample.MarshalMsg f (tag_with_prefix (config f) "t")
        Sample.noon kv /\
    kv !! field_name key = Some 2.
Proof.
  intros f id key.
  assert (H1 : Forall (fun p : StructField * Z => PkgPath p.1 = "")
                 ([(id, 1)] ++ (key, 2) :: [])) by (repeat constructor).
  assert (H2 : Forall (fun q : StructField * Z => field_name q.1 <> field_name key) [])
    by constructor.
  split; [exact H1|]. split; [exact H2|].
  exact (later_field_wins Sample.MarshalMsg f "t" Sample.noon [(id, 1)] [] key 2 H1 H2).
Defined.
